(** * Exchange cycle resolution engine (exchangefinal.py)

    A shallow embedding of the matching core of the car exchange script:
    the asset key normaliser of [load_all_requests_from_mongo], the demand
    graph builder [build_graph], the conflict check
    [violates_offer_conflict], the two cycle search strategies
    [sample_cycles_greedy] and [sample_cycles_exhaustive], and the cycle
    describer [describe_cycles]; and of what surrounds the core: the
    upsert [save_user_data_to_mongo], the upload button and the matching
    run from the loaded requests to the table of cycles.

    Conventions of the embedding.
    - Python [str] values are Rocq strings read as sequences of ASCII
      characters; characters outside ASCII are caseless and never
      whitespace.
    - A Python [set] is a [gset], a [dict] used as a map is a [gmap]; the
      insertion order of the networkx adjacency dictionaries is kept in
      lists.
    - A raised exception is the [Raise] outcome of the [result] monad.
    - The collection [user_uploads] is the list of its documents in
      natural order.
    - The cells [MODELO], [VERSION] and [full_name] of a row hold text
      when they are present. A row with an empty or numeric cell, on
      which the [str] methods of lines 57, 60, 81 and 93 raise
      [AttributeError], is no value of [asset]: what is proved of a
      function that raises nothing is proved of rows of text.
    - The [while stack:] loop of the exhaustive strategy consumes one unit
      of fuel per iteration; [None] means the fuel ran out. *)

From Stdlib Require Import Ascii String ZArith Lia.
From stdpp Require Import gmap strings list fin_maps pretty.

Local Open Scope string_scope.
Local Open Scope list_scope.
Local Open Scope Z_scope.
Local Open Scope nat_scope.

(** ** Exceptions *)

Inductive exn := KeyError.

Inductive result (A : Type) : Type :=
  | Ok (a : A)
  | Raise (e : exn).
Arguments Ok {A} a.
Arguments Raise {A} e.

#[global] Instance result_ret : MRet result := λ A a, Ok a.
#[global] Instance result_bind : MBind result := λ A B f r,
  match r with
  | Ok a => f a
  | Raise e => Raise e
  end.

(** ** Strings: [str.strip], [str.upper], [str.lower] *)

Module Str.

(** [str.isspace] on ASCII: TAB, LF, VT, FF, CR, FS, GS, RS, US, SPACE. *)
Definition is_space (c : ascii) : bool :=
  let n := N_of_ascii c in
  ((9 <=? n) && (n <=? 13) || (28 <=? n) && (n <=? 32))%N.

Definition is_lower (c : ascii) : bool :=
  let n := N_of_ascii c in ((97 <=? n) && (n <=? 122))%N.

Definition is_upper (c : ascii) : bool :=
  let n := N_of_ascii c in ((65 <=? n) && (n <=? 90))%N.

Definition char_upper (c : ascii) : ascii :=
  if is_lower c then ascii_of_N (N_of_ascii c - 32) else c.

Definition char_lower (c : ascii) : ascii :=
  if is_upper c then ascii_of_N (N_of_ascii c + 32) else c.

Fixpoint upper (s : string) : string :=
  match s with
  | EmptyString => EmptyString
  | String c s' => String (char_upper c) (upper s')
  end.

Fixpoint lower (s : string) : string :=
  match s with
  | EmptyString => EmptyString
  | String c s' => String (char_lower c) (lower s')
  end.

Fixpoint lstrip (s : string) : string :=
  match s with
  | EmptyString => EmptyString
  | String c s' => if is_space c then lstrip s' else s
  end.

Fixpoint rstrip (s : string) : string :=
  match s with
  | EmptyString => EmptyString
  | String c s' =>
      match rstrip s' with
      | EmptyString => if is_space c then EmptyString else String c EmptyString
      | r => String c r
      end
  end.

Definition strip (s : string) : string := rstrip (lstrip s).

(** ["sep".join(parts)] *)
Fixpoint join (sep : string) (parts : list string) : string :=
  match parts with
  | [] => EmptyString
  | [p] => p
  | p :: ps => p +:+ sep +:+ join sep ps
  end.

Definition newline : string := String "010"%char EmptyString.

(** Strings made of whitespace only. *)
Fixpoint blank (s : string) : bool :=
  match s with
  | EmptyString => true
  | String c s' => is_space c && blank s'
  end.

(** Two characters that are equal or are the two cases of one letter. *)
Definition same_letter (c d : ascii) : Prop :=
  c = d ∨ (is_lower c = true ∧ d = char_upper c)
        ∨ (is_lower d = true ∧ c = char_upper d).

(** Strings that differ only in letter case. *)
Inductive case_variant : string → string → Prop :=
  | case_variant_nil : case_variant EmptyString EmptyString
  | case_variant_cons c d s t :
      same_letter c d → case_variant s t →
      case_variant (String c s) (String d t).

(** [s] is [core] with whitespace added in front and behind. *)
Definition padded (core s : string) : Prop :=
  ∃ l r, blank l = true ∧ blank r = true ∧ s = l +:+ core +:+ r.

(** Strings that differ only in letter case and in leading or trailing
    whitespace. *)
Definition same_text (s t : string) : Prop :=
  ∃ cs ct, padded cs s ∧ padded ct t ∧ case_variant cs ct.

End Str.

(** ** Data model *)

(** A participant id or display name as stored in the document store: a
    text or an integer. *)
Inductive ident :=
  | IStr (s : string)
  | IInt (z : Z).

#[global] Instance ident_eq_dec : EqDecision ident.
Proof. solve_decision. Defined.

#[global] Instance ident_countable : Countable ident.
Proof.
  refine (inj_countable'
    (λ i, match i with IStr s => inl s | IInt z => inr z end)
    (λ x, match x with inl s => IStr s | inr z => IInt z end) _).
  by intros [].
Defined.

(** [str(x)] as used by the f-string of [describe_cycles]. *)
Definition py_str (i : ident) : string :=
  match i with
  | IStr s => s
  | IInt z => pretty z
  end.

(** An offer or want row: a dictionary in which each of the keys
    ['MODELO'], ['VERSION'] and ['full_name'] may be absent. *)
Record asset := Asset {
  MODELO : option string;
  VERSION : option string;
  full_name : option string;
}.

(** One entry of a user's ["uploads"] array. *)
Record upload := Upload {
  up_offers : list asset;
  up_wants : list asset;
}.

(** A document of the [user_uploads] collection. *)
Record user_doc := UserDoc {
  agency_id : ident;
  user_name : option string;
  uploads : list upload;
}.

(** A request as built by [load_all_requests_from_mongo]. *)
Record request := Request {
  id : ident;
  name : ident;
  offers : list asset;
  wants : list asset;
}.

(** ** load_all_requests_from_mongo (lines 48-70) *)

(** Lines 56-57 and 59-60: the identity key is filled in when it is absent
    and both fields are present. *)
Definition add_full_name (a : asset) : asset :=
  match full_name a, MODELO a, VERSION a with
  | None, Some m, Some v =>
      {| MODELO := MODELO a; VERSION := VERSION a;
         full_name := Some (Str.upper (Str.strip m) +:+ " - " +:+ Str.upper (Str.strip v)) |}
  | _, _, _ => a
  end.

Definition request_of_upload (user : user_doc) (up : upload) : request :=
  {| id := agency_id user;
     name := from_option IStr (agency_id user) (user_name user);
     offers := add_full_name <$> up_offers up;
     wants := add_full_name <$> up_wants up |}.

(** The pure part of the loader: [participants] is the result of
    [mongo_collection.find({})]. *)
Definition load_all_requests_from_mongo (participants : list user_doc) : list request :=
  user ← participants; request_of_upload user <$> uploads user.

(** ** The demand graph (networkx DiGraph) *)

(** Nodes in insertion order; for every node with outgoing edges its
    successors in insertion order. *)
Record DiGraph := Graph {
  nodes : list ident;
  adj : gmap ident (list ident);
}.

Definition empty_graph : DiGraph := {| nodes := []; adj := ∅ |}.

Definition successors (G : DiGraph) (n : ident) : list ident :=
  default [] (adj G !! n).

Definition add_node (n : ident) (G : DiGraph) : DiGraph :=
  if bool_decide (n ∈ nodes G) then G
  else {| nodes := nodes G ++ [n]; adj := adj G |}.

Definition add_edge (u v : ident) (G : DiGraph) : DiGraph :=
  let G' := add_node v (add_node u G) in
  if bool_decide (v ∈ successors G' u) then G'
  else {| nodes := nodes G'; adj := <[u := successors G' u ++ [v]]> (adj G') |}.

(** [a['full_name']]: a KeyError when the key is absent. *)
Definition get_full_name (a : asset) : result string :=
  match full_name a with
  | Some k => Ok k
  | None => Raise KeyError
  end.

(** [o['full_name'].lower() == w['full_name'].lower()] *)
Definition names_match (o w : asset) : result bool :=
  ko ← get_full_name o; kw ← get_full_name w;
  mret (String.eqb (Str.lower ko) (Str.lower kw)).

(** ** build_graph (lines 72-83) *)

(** The generator of line 81 for one offer: the wants are compared in
    order until one matches. *)
Fixpoint any_want (o : asset) (ws : list asset) : result bool :=
  match ws with
  | [] => Ok false
  | w :: ws' =>
      b ← names_match o w;
      if b : bool then Ok true else any_want o ws'
  end.

(** [any(... for o in offers for w in wants)] *)
Fixpoint any_match (os ws : list asset) : result bool :=
  match os with
  | [] => Ok false
  | o :: os' =>
      b ← any_want o ws;
      if b : bool then Ok true else any_match os' ws
  end.

(** The inner loop of lines 78-82. *)
Fixpoint edges_from (req_a : request) (reqs : list request) (G : DiGraph)
  : result DiGraph :=
  match reqs with
  | [] => Ok G
  | req_b :: reqs' =>
      if bool_decide (id req_a = id req_b) then edges_from req_a reqs' G
      else
        b ← any_match (offers req_a) (wants req_b);
        edges_from req_a reqs'
          (if b : bool then add_edge (id req_a) (id req_b) G else G)
  end.

(** The outer loop of lines 77-82; [requests] is the whole list. *)
Fixpoint edges_all (as_ requests : list request) (G : DiGraph)
  : result DiGraph :=
  match as_ with
  | [] => Ok G
  | req_a :: as' =>
      G' ← edges_from req_a requests G;
      edges_all as' requests G'
  end.

Definition build_graph (requests : list request) : result DiGraph :=
  edges_all requests requests
    (foldl (λ G req, add_node (id req) G) empty_graph requests).

(** Line 201: [{r['id']: r for r in all_requests}]; a later request with
    the same id replaces an earlier one. *)
Definition make_request_map (requests : list request) : gmap ident request :=
  foldl (λ m r, <[id r := r]> m) ∅ requests.

(** ** violates_offer_conflict (lines 85-98) *)

(** The tracker of used offers: pairs of a giver id and an identity key. *)
Abbreviation offer_set := (gset (ident * string)).

(** The loop over the wants of the receiver, line 92, for one offer. The
    boolean is [true] when the function returned [True] inside the loop;
    the set is the tracker as the loop left it. *)
Fixpoint conflict_wants (giver_id : ident) (offer : asset) (ws : list asset)
    (used_offers : offer_set) : result (bool * offer_set) :=
  match ws with
  | [] => Ok (false, used_offers)
  | want :: ws' =>
      b ← names_match offer want;
      if b : bool then
        k ← get_full_name offer;
        let key := (giver_id, k) in
        if bool_decide (key ∈ used_offers) then Ok (true, used_offers)
        else conflict_wants giver_id offer ws' ({[key]} ∪ used_offers)
      else conflict_wants giver_id offer ws' used_offers
  end.

(** The loop over the offers of the giver, line 91. *)
Fixpoint conflict_offers (giver_id : ident) (os ws : list asset)
    (used_offers : offer_set) : result (bool * offer_set) :=
  match os with
  | [] => Ok (false, used_offers)
  | offer :: os' =>
      '(ret, used_offers') ← conflict_wants giver_id offer ws used_offers;
      if ret : bool then Ok (true, used_offers')
      else conflict_offers giver_id os' ws used_offers'
  end.

(** [request_map[k]] *)
Definition get_request (request_map : gmap ident request) (k : ident)
  : result request :=
  match request_map !! k with
  | Some r => Ok r
  | None => Raise KeyError
  end.

(** The loop over [range(len(cycle) - 1)], line 86: the consecutive pairs
    of the cycle. *)
Fixpoint violates_offer_conflict (cycle : list ident)
    (request_map : gmap ident request) (used_offers : offer_set)
  : result (bool * offer_set) :=
  match cycle with
  | giver_id :: (receiver_id :: _) as rest =>
      giver ← get_request request_map giver_id;
      receiver ← get_request request_map receiver_id;
      '(ret, used_offers') ←
        conflict_offers giver_id (offers giver) (wants receiver) used_offers;
      if ret : bool then Ok (true, used_offers')
      else violates_offer_conflict rest request_map used_offers'
  | _ => Ok (false, used_offers)
  end.

(** ** The acceptance step shared by both strategies *)

(** The run state: [all_cycles], [used_nodes], [used_offers]. *)
Record run_state := RunState {
  all_cycles : list (list ident);
  used_nodes : gset ident;
  used_offers : offer_set;
}.

Definition initial_state : run_state :=
  {| all_cycles := []; used_nodes := ∅; used_offers := ∅ |}.

(** Lines 111-114 and 131-134. The tracker keeps whatever the conflict
    check wrote into it, whether the cycle is accepted or not. *)
Definition accept_cycle (cycle : list ident)
    (request_map : gmap ident request) (st : run_state) : result run_state :=
  if existsb (λ node, bool_decide (node ∈ used_nodes st)) cycle then Ok st
  else
    '(ret, used_offers') ← violates_offer_conflict cycle request_map (used_offers st);
    if ret : bool then
      Ok {| all_cycles := all_cycles st; used_nodes := used_nodes st;
            used_offers := used_offers' |}
    else
      Ok {| all_cycles := all_cycles st ++ [cycle];
            used_nodes := used_nodes st ∪ list_to_set cycle;
            used_offers := used_offers' |}.

(** ** Subgraphs *)

(** [G.subgraph(component).copy()]: the nodes in the order in which the
    component is iterated, the successors of a node of the component in
    the order of [G], restricted to the component. *)
Definition subgraph (G : DiGraph) (component : list ident) : DiGraph :=
  {| nodes := component;
     adj := filter (λ kv, kv.1 ∈ component)
              ((λ vs, filter (λ v, v ∈ component) vs) <$> adj G) |}.

(** [cycles.sort(key=len, reverse=True)]: a stable sort, longest first. *)
Fixpoint insert_by_len (c : list ident) (sorted : list (list ident))
  : list (list ident) :=
  match sorted with
  | [] => [c]
  | d :: sorted' =>
      if length c <? length d then d :: insert_by_len c sorted'
      else c :: sorted
  end.

Definition sort_by_len_desc (cycles : list (list ident)) : list (list ident) :=
  foldr insert_by_len [] cycles.

(** [c[0] == c[-1]] on a non-empty list. *)
Definition first_is_last (c : list ident) : bool :=
  match head c, last c with
  | Some a, Some b => bool_decide (a = b)
  | _, _ => false
  end.

(** ** The two strategies *)

(** The default [max_len=10] of both strategies; the calls of lines 205 and
    207 pass no bound. *)
Definition default_max_len : Z := 10.

(** An entry [(node, path)] of the search stack of the exhaustive
    strategy. The stack is a list whose head is the top, the end of the
    Python list. *)
Abbreviation frame := (ident * list ident)%type.

Section strategies.

(** The two networkx functions the strategies call.
    [connected_components G] stands for
    [nx.connected_components(G.to_undirected())], each component given
    as the list of its nodes in iteration order; [simple_cycles] stands
    for [nx.simple_cycles]. *)
Variable connected_components : DiGraph → list (list ident).
Variable simple_cycles : DiGraph → list (list ident).

(** *** sample_cycles_greedy (lines 100-115) *)

(** The loop of line 110 over the candidates of one component. *)
Fixpoint greedy_scan (cycles : list (list ident))
    (request_map : gmap ident request) (st : run_state) : result run_state :=
  match cycles with
  | [] => Ok st
  | cycle :: cycles' =>
      st' ← accept_cycle cycle request_map st;
      greedy_scan cycles' request_map st'
  end.

(** Lines 106-114 for one component. *)
Definition greedy_component (G : DiGraph) (component : list ident)
    (request_map : gmap ident request) (st : run_state) : result run_state :=
  let sg := subgraph G component in
  let cycles := simple_cycles sg in
  let cycles := filter (λ c, 3 ≤ length c ∧ first_is_last c = true) cycles in
  let cycles := sort_by_len_desc cycles in
  greedy_scan cycles request_map st.

Fixpoint greedy_components (G : DiGraph) (components : list (list ident))
    (request_map : gmap ident request) (st : run_state) : result run_state :=
  match components with
  | [] => Ok st
  | component :: components' =>
      st' ← greedy_component G component request_map st;
      greedy_components G components' request_map st'
  end.

Definition sample_cycles_greedy (G : DiGraph)
    (request_map : gmap ident request) (max_len : Z)
  : result (list (list ident)) :=
  st ← greedy_components G (connected_components G) request_map initial_state;
  mret (all_cycles st).

(** *** sample_cycles_exhaustive (lines 117-138) *)

(** The loop of line 128 over the successors of the popped node; [stack]
    is the stack after the pop. *)
Fixpoint scan_successors (start : ident) (path : list ident) (max_len : Z)
    (neighbors : list ident) (request_map : gmap ident request)
    (stack : list frame) (st : run_state) : result (list frame * run_state) :=
  match neighbors with
  | [] => Ok (stack, st)
  | neighbor :: neighbors' =>
      if bool_decide (neighbor = start) && (3 <=? length path) then
        st' ← accept_cycle (path ++ [start]) request_map st;
        Ok (stack, st')
      else if bool_decide (neighbor ∉ path) && (Z.of_nat (length path) <? max_len)%Z then
        scan_successors start path max_len neighbors' request_map
          ((neighbor, path ++ [neighbor]) :: stack) st
      else
        scan_successors start path max_len neighbors' request_map stack st
  end.

(** The loop of line 126. *)
Fixpoint search_while (fuel : nat) (sg : DiGraph) (start : ident) (max_len : Z)
    (request_map : gmap ident request) (stack : list frame) (st : run_state)
  : option (result run_state) :=
  match stack with
  | [] => Some (Ok st)
  | (node, path) :: stack' =>
      match fuel with
      | 0 => None
      | S fuel' =>
          match scan_successors start path max_len (successors sg node)
                  request_map stack' st with
          | Ok (stack'', st') =>
              search_while fuel' sg start max_len request_map stack'' st'
          | Raise e => Some (Raise e)
          end
      end
  end.

(** The loop of line 124 over the start nodes of one subgraph. *)
Fixpoint search_starts (fuel : nat) (sg : DiGraph) (starts : list ident)
    (max_len : Z) (request_map : gmap ident request) (st : run_state)
  : option (result run_state) :=
  match starts with
  | [] => Some (Ok st)
  | start :: starts' =>
      match search_while fuel sg start max_len request_map [(start, [start])] st with
      | Some (Ok st') => search_starts fuel sg starts' max_len request_map st'
      | other => other
      end
  end.

(** The loop of line 122 over the components. *)
Fixpoint search_components (fuel : nat) (G : DiGraph)
    (components : list (list ident)) (max_len : Z)
    (request_map : gmap ident request) (st : run_state)
  : option (result run_state) :=
  match components with
  | [] => Some (Ok st)
  | component :: components' =>
      let sg := subgraph G component in
      match search_starts fuel sg (nodes sg) max_len request_map st with
      | Some (Ok st') =>
          search_components fuel G components' max_len request_map st'
      | other => other
      end
  end.

Definition sample_cycles_exhaustive (fuel : nat) (G : DiGraph)
    (request_map : gmap ident request) (max_len : Z)
  : option (result (list (list ident))) :=
  match search_components fuel G (connected_components G) max_len
          request_map initial_state with
  | Some (Ok st) => Some (Ok (all_cycles st))
  | Some (Raise e) => Some (Raise e)
  | None => None
  end.

End strategies.

(** ** describe_cycles (lines 140-166) *)

(** A row of the result tables. *)
Record cycle_record := CycleRecord {
  cycle_id : nat;
  exchange_path : string;
}.

#[global] Instance cycle_record_eq_dec : EqDecision cycle_record.
Proof. solve_decision. Defined.

(** The generator of lines 154-155 for one offer. *)
Fixpoint first_want (o : asset) (ws : list asset) : result bool :=
  match ws with
  | [] => Ok false
  | w :: ws' =>
      b ← names_match o w;
      if b : bool then Ok true else first_want o ws'
  end.

(** [next((o for o in offers for w in wants if ...), None)] *)
Fixpoint matching_offer (os ws : list asset) : result (option asset) :=
  match os with
  | [] => Ok None
  | o :: os' =>
      b ← first_want o ws;
      if b : bool then Ok (Some o) else matching_offer os' ws
  end.

(** The loop of line 149: one line per consecutive pair with a match. *)
Fixpoint describe_steps (cycle : list ident) (request_map : gmap ident request)
  : result (list string) :=
  match cycle with
  | giver_id :: (receiver_id :: _) as rest =>
      giver ← get_request request_map giver_id;
      receiver ← get_request request_map receiver_id;
      mo ← matching_offer (offers giver) (wants receiver);
      line ← match mo with
             | Some o =>
                 k ← get_full_name o;
                 mret [py_str (name giver) +:+ " offers '" +:+ k +:+ "' → to "
                         +:+ py_str (name receiver)]
             | None => mret []
             end;
      description ← describe_steps rest request_map;
      mret (line ++ description)
  | _ => Ok []
  end.

(** The participant whose matches the filtered table shows: the literal
    [0] of line 163. *)
Definition self_id : ident := IInt 0.

(** The loop of line 144; [cycle_id] is the index given by [enumerate]. *)
Fixpoint describe_from (cycle_id : nat) (cycles : list (list ident))
    (request_map : gmap ident request)
  : result (list cycle_record * list cycle_record) :=
  match cycles with
  | [] => Ok ([], [])
  | cycle :: cycles' =>
      if (length cycle <? 3) || negb (first_is_last cycle) then
        describe_from (S cycle_id) cycles' request_map
      else
        description ← describe_steps cycle request_map;
        let rec := {| cycle_id := cycle_id;
                      exchange_path := Str.join Str.newline description |} in
        '(all_rest, user_rest) ← describe_from (S cycle_id) cycles' request_map;
        mret (rec :: all_rest,
              if bool_decide (self_id ∈ cycle) then rec :: user_rest else user_rest)
  end.

Definition describe_cycles (cycles : list (list ident))
    (request_map : gmap ident request)
  : result (list cycle_record * list cycle_record) :=
  describe_from 0 cycles request_map.

(** ** save_user_data_to_mongo (lines 28-46) *)

(** The collection [user_uploads] as the list of its documents in natural
    order. [push_upload] is the update half of
    [update_one({"agency_id": agency_id}, {"$push": ...}, upsert=True)]: the
    first document with that agency id gets the upload appended to its
    ["uploads"] array; [None] when no document matches. *)
Fixpoint push_upload (agency : ident) (up : upload) (coll : list user_doc)
  : option (list user_doc) :=
  match coll with
  | [] => None
  | doc :: coll' =>
      if bool_decide (agency_id doc = agency) then
        Some ({| agency_id := agency_id doc; user_name := user_name doc;
                 uploads := uploads doc ++ [up] |} :: coll')
      else (doc ::.) <$> push_upload agency up coll'
  end.

(** The upsert: when no document matches, one is inserted with the fields
    of [$setOnInsert] and the pushed upload. The fields ["user_id"] and
    ["uploaded_at"], which the matching core never reads, are left out. *)
Definition save_user_data_to_mongo (offers wants : list asset) (name : string)
    (agency : ident) (coll : list user_doc) : list user_doc :=
  let up := {| up_offers := offers; up_wants := wants |} in
  match push_upload agency up coll with
  | Some coll' => coll'
  | None =>
      coll ++ [ {| agency_id := agency; user_name := Some name; uploads := [up] |} ]
  end.

(** ** The upload button (lines 179-188) *)

Inductive upload_outcome :=
  | MissingNameOrId
  | MissingFile
  | Uploaded (n_offers n_wants : nat).

(** [file] is the uploaded workbook as [load_offer_want_excel] reads it:
    the rows of its two sheets; [None] when no file was selected. *)
Definition upload_file (name agency : string)
    (file : option (list asset * list asset)) (coll : list user_doc)
  : upload_outcome * list user_doc :=
  if String.eqb (Str.strip name) "" || String.eqb (Str.strip agency) "" then
    (MissingNameOrId, coll)
  else
    match file with
    | None => (MissingFile, coll)
    | Some (offers, wants) =>
        (Uploaded (length offers) (length wants),
         save_user_data_to_mongo offers wants name (IStr agency) coll)
    end.

(** ** The matching run (lines 201-209) *)

Inductive algo_choice := Greedy | Exhaustive.

Section matching_run.

Variable connected_components : DiGraph → list (list ident).
Variable simple_cycles : DiGraph → list (list ident).

(** The run from the loaded requests to the table of all cycles. *)
Definition find_exchange_cycles (fuel : nat) (algo_choice : algo_choice)
    (all_requests : list request) : option (result (list cycle_record)) :=
  let request_map := make_request_map all_requests in
  match build_graph all_requests with
  | Raise e => Some (Raise e)
  | Ok G =>
      let cycles :=
        match algo_choice with
        | Greedy =>
            Some (sample_cycles_greedy connected_components simple_cycles
                    G request_map default_max_len)
        | Exhaustive =>
            sample_cycles_exhaustive connected_components fuel
              G request_map default_max_len
        end in
      match cycles with
      | None => None
      | Some (Raise e) => Some (Raise e)
      | Some (Ok cycles) =>
          match describe_cycles cycles request_map with
          | Ok (df_all, _) => Some (Ok df_all)
          | Raise e => Some (Raise e)
          end
      end
  end.

End matching_run.

(** * Vocabulary of the properties *)

(** ** Assets and the demand relation *)

(** A raw spreadsheet row: model and version, no identity key yet. *)
Definition raw_asset (model version : string) : asset :=
  {| MODELO := Some model; VERSION := Some version; full_name := None |}.

(** The demand relation of the data: [u] gives to [v] when a request of
    [u] offers an asset whose identity key equals, ignoring case, the key
    of an asset wanted by a request of [v]. *)
Definition demand (requests : list request) (u v : ident) : Prop :=
  u ≠ v ∧
  ∃ req_a req_b o w ko kw,
    req_a ∈ requests ∧ req_b ∈ requests ∧ id req_a = u ∧ id req_b = v ∧
    o ∈ offers req_a ∧ w ∈ wants req_b ∧
    full_name o = Some ko ∧ full_name w = Some kw ∧
    Str.lower ko = Str.lower kw.

(** A row that carries an identity key. *)
Definition keyed (a : asset) : Prop := is_Some (full_name a).

(** Requests all of whose rows carry an identity key. *)
Definition all_keyed (requests : list request) : Prop :=
  Forall (λ r, Forall keyed (offers r) ∧ Forall keyed (wants r)) requests.

(** Every edge of the graph is backed by the data. *)
Definition edges_sound (requests : list request) (G : DiGraph) : Prop :=
  ∀ u v, v ∈ successors G u → demand requests u v.

(** ** Steps of a cycle and the tracker *)

(** [u] is followed by [v] somewhere in the sequence. *)
Definition consecutive (c : list ident) (u v : ident) : Prop :=
  ∃ i, c !! i = Some u ∧ c !! S i = Some v.

(** The offer [o] has the identity key [k] and matches one of [ws]. *)
Definition offer_matches (o : asset) (ws : list asset) (k : string) : Prop :=
  full_name o = Some k ∧ ∃ w, w ∈ ws ∧ names_match o w = Ok true.

(** [(g, k)] is an offer of the giver [g] of some step of the cycle that
    matches a want of the receiver of that step. *)
Definition step_offer (request_map : gmap ident request) (cycle : list ident)
    (p : ident * string) : Prop :=
  ∃ r giver receiver o,
    consecutive cycle p.1 r ∧
    request_map !! p.1 = Some giver ∧ request_map !! r = Some receiver ∧
    o ∈ offers giver ∧ offer_matches o (wants receiver) p.2.

(** The tracker only grows, and only by pairs satisfying [Q]. *)
Definition grows_by (used used' : offer_set) (Q : ident * string → Prop) : Prop :=
  used ⊆ used' ∧ ∀ p, p ∈ used' → p ∈ used ∨ Q p.

(** The graph of a list of requests; the empty graph when the builder
    raises. *)
Definition graph_of (requests : list request) : DiGraph :=
  match build_graph requests with
  | Ok G => G
  | Raise _ => empty_graph
  end.

(** The gift of a step as [describe_cycles] derives it (lines 150-155):
    the giver of the step with the identity key of the first offer that
    matches a want of the receiver. *)
Definition gift (request_map : gmap ident request) (cycle : list ident)
    (p : ident * string) : Prop :=
  ∃ r giver receiver o,
    consecutive cycle p.1 r ∧
    request_map !! p.1 = Some giver ∧ request_map !! r = Some receiver ∧
    matching_offer (offers giver) (wants receiver) = Ok (Some o) ∧
    full_name o = Some p.2.

(** ** Invariants of a run *)

(** No node belongs to two cycles at different positions of the list. *)
Definition disjoint_cycles (cs : list (list ident)) : Prop :=
  ∀ i j c1 c2 n,
    i ≠ j → cs !! i = Some c1 → cs !! j = Some c2 → n ∈ c1 → n ∉ c2.

(** The invariant of the run state: the nodes of the accepted cycles are
    committed, the accepted cycles are disjoint, each has the shape [P]. *)
Record state_ok (P : list ident → Prop) (st : run_state) : Prop := StateOk {
  ok_used : ∀ c n, c ∈ all_cycles st → n ∈ c → n ∈ used_nodes st;
  ok_disjoint : disjoint_cycles (all_cycles st);
  ok_each : ∀ c, c ∈ all_cycles st → P c;
}.

(** A closed walk [p0, ..., pk-1, p0] over at least three distinct nodes
    along the edges of a relation. *)
Definition is_cycle (edge : ident → ident → Prop) (c : list ident) : Prop :=
  ∃ p0 ps,
    c = (p0 :: ps) ++ [p0] ∧ NoDup (p0 :: ps) ∧ 3 ≤ length (p0 :: ps) ∧
    ∀ u v, consecutive c u v → edge u v.

(** A stack entry holds a simple path from the start node to its node. *)
Definition frame_ok (edge : ident → ident → Prop) (start : ident)
    (fr : frame) : Prop :=
  (∃ ps, fr.2 = start :: ps) ∧ last fr.2 = Some fr.1 ∧ NoDup fr.2 ∧
  ∀ u v, consecutive fr.2 u v → edge u v.

(** The relation "[v] is a successor of [u] in [G]". *)
Definition edge_of (G : DiGraph) (u v : ident) : Prop := v ∈ successors G u.

(** ** Fuel of the exhaustive search *)

(** The number of loop iterations a stack entry can cause when at most
    [k] more nodes may be appended to its path and every node has at most
    [B] successors. *)
Fixpoint frame_weight (B k : nat) : nat :=
  match k with
  | 0 => 1
  | S k' => 1 + B * frame_weight B k'
  end.

Definition depth_left (max_len : Z) (path : list ident) : nat :=
  Z.to_nat (max_len - Z.of_nat (length path)).

Definition stack_weight (B : nat) (max_len : Z) (stack : list frame) : nat :=
  sum_list ((λ fr : frame, frame_weight B (depth_left max_len fr.2)) <$> stack).

Definition max_degree (G : DiGraph) : nat :=
  max_list (length <$> (map_to_list (adj G)).*2).

(** Fuel that suffices for every [while] loop of a run on [G]. *)
Definition enough_fuel (G : DiGraph) (max_len : Z) : nat :=
  S (frame_weight (max_degree G) (Z.to_nat (max_len - 1))).

(** The weight one pushed successor adds, if any can be pushed at all. *)
Definition child_weight (B : nat) (max_len : Z) (path : list ident) : nat :=
  if (Z.of_nat (length path) <? max_len)%Z
  then frame_weight B (pred (depth_left max_len path)) else 0.

(** ** What the strategies are given and what they return *)

(** What is assumed of [nx.simple_cycles]: a cycle is reported as the list
    of its nodes, each node once; the first node is not repeated at the
    end. *)
Definition simple_cycles_spec (simple_cycles : DiGraph → list (list ident)) : Prop :=
  ∀ sg c, c ∈ simple_cycles sg → NoDup c.

(** What is assumed of [nx.connected_components]: the components
    partition the nodes, none is empty, and no edge leaves a component. *)
Record components_spec (G : DiGraph) (components : list (list ident)) : Prop :=
  ComponentsSpec {
    comps_partition : concat components ≡ₚ nodes G;
    comps_nonempty : ∀ c, c ∈ components → c ≠ [];
    comps_closed : ∀ c u v,
      c ∈ components → u ∈ c →
      v ∈ successors G u ∨ u ∈ successors G v → v ∈ c;
  }.

(** The greedy strategy returns the list [cycles]. *)
Definition greedy_returns
    (connected_components simple_cycles : DiGraph → list (list ident))
    (G : DiGraph) (request_map : gmap ident request)
    (max_len : Z) (cycles : list (list ident)) : Prop :=
  sample_cycles_greedy connected_components simple_cycles G request_map max_len
    = Ok cycles.

(** The exhaustive strategy returns the list [cycles]: some amount of
    fuel lets the search run to its end with that list. *)
Definition exhaustive_returns
    (connected_components : DiGraph → list (list ident))
    (G : DiGraph) (request_map : gmap ident request)
    (max_len : Z) (cycles : list (list ident)) : Prop :=
  ∃ fuel,
    sample_cycles_exhaustive connected_components fuel G request_map max_len
      = Some (Ok cycles).

(** The closing of a list of nodes into a cycle: the first node is
    repeated at the end. *)
Definition close_cycle (p : list ident) : list ident := p ++ take 1 p.

(** A stand-in for [nx.simple_cycles] that reports the cycles through all
    nodes of the graph, in every rotation, as lists of distinct nodes. *)
Definition closes_in (sg : DiGraph) (c : list ident) : bool :=
  bool_decide (NoDup c)
  && forallb (λ uv : ident * ident, bool_decide (uv.2 ∈ successors sg uv.1))
       (zip c (drop 1 c ++ take 1 c)).

Definition spanning_cycles (sg : DiGraph) : list (list ident) :=
  filter (λ c, closes_in sg c = true) (permutations (nodes sg)).

(** ** Well-formed graphs *)

(** The nodes are listed once, no node is listed twice among the
    successors of a node, and every edge joins two nodes. *)
Record graph_wf (G : DiGraph) : Prop := GraphWf {
  wf_nodes : NoDup (nodes G);
  wf_successors : ∀ u, NoDup (successors G u);
  wf_edges : ∀ u v, v ∈ successors G u → u ∈ nodes G ∧ v ∈ nodes G;
}.

(** The state of the graph while [build_graph] adds the edges: well
    formed, on the nodes [N], with sound edges. *)
Definition builder_inv (requests : list request) (N : list ident)
    (G : DiGraph) : Prop :=
  graph_wf G ∧ nodes G = N ∧ edges_sound requests G.

(** The cycle passed one call of the conflict check without a conflict. *)
Definition passes_check (request_map : gmap ident request) (c : list ident) : Prop :=
  ∃ used used', violates_offer_conflict c request_map used = Ok (false, used').

(** Every request stored in the map has a key on each of its rows. *)
Definition map_keyed (request_map : gmap ident request) : Prop :=
  ∀ i r, request_map !! i = Some r →
         Forall keyed (offers r) ∧ Forall keyed (wants r).

(** The test of line 145 of [describe_cycles]. *)
Definition describable (c : list ident) : bool :=
  negb ((length c <? 3) || negb (first_is_last c)).

(** A result of a search loop is acceptable: a returned state satisfies
    [I], a raised exception is allowed only when [Bad] holds. *)
Definition outcome_ok (I : run_state → Prop) (Bad : Prop)
    (r : result run_state) : Prop :=
  match r with
  | Ok st => I st
  | Raise _ => Bad
  end.

(** The participant has a request in the map. *)
Definition known (request_map : gmap ident request) (n : ident) : Prop :=
  is_Some (request_map !! n).

(** The display name the store holds for an agency after a save: the name
    of its first document when there is one, else the name just given. *)
Definition name_after_save (name : string) (agency : ident)
    (coll : list user_doc) : ident :=
  match head (filter (λ doc, agency_id doc = agency) coll) with
  | Some doc => from_option IStr (agency_id doc) (user_name doc)
  | None => IStr name
  end.

(** The request the loader makes of a saved upload. *)
Definition saved_request (offers wants : list asset) (name : string)
    (agency : ident) (coll : list user_doc) : request :=
  {| id := agency; name := name_after_save name agency coll;
     offers := add_full_name <$> offers; wants := add_full_name <$> wants |}.

(** A stored row from which the loader can make an identity key: it has
    one already, or it has a model and a version. *)
Definition complete_row (a : asset) : Prop :=
  keyed a ∨ (is_Some (MODELO a) ∧ is_Some (VERSION a)).

(** A store all of whose rows are complete. *)
Definition complete_store (coll : list user_doc) : Prop :=
  ∀ doc up, doc ∈ coll → up ∈ uploads doc →
            Forall complete_row (up_offers up) ∧ Forall complete_row (up_wants up).

(** ** The matches a scan meets *)





(** The text consists of ASCII characters only. *)
Fixpoint ascii_text (s : string) : bool :=
  match s with
  | EmptyString => true
  | String c s' => (N_of_ascii c <? 128)%N && ascii_text s'
  end.

(** ** Example data *)

Module Example.

(** An asset row that already carries its identity key. *)
Definition item (k : string) : asset :=
  {| MODELO := None; VERSION := None; full_name := Some k |}.

Definition party (i : ident) (os ws : list string) : request :=
  {| id := i; name := i; offers := item <$> os; wants := item <$> ws |}.

Definition A : ident := IStr "A".
Definition B : ident := IStr "B".
Definition C : ident := IStr "C".
Definition D : ident := IStr "D".
Definition E : ident := IStr "E".
Definition F : ident := IStr "F".

(** A offers X and wants Y, B offers Y and wants Z, C offers Z and
    wants X. *)
Definition three_parties : list request :=
  [party A ["X"] ["Y"]; party B ["Y"] ["Z"]; party C ["Z"] ["X"]].

Definition three_graph : DiGraph :=
  {| nodes := [A; B; C];
     adj := <[A := [C]]> (<[B := [A]]> (<[C := [B]]> ∅)) |}.

Definition three_map : gmap ident request := make_request_map three_parties.

(** A second ring beside the first, and a third one whose ids are
    integers. *)
Definition six_parties : list request :=
  three_parties ++
  [party D ["U"] ["V"]; party E ["V"] ["W"]; party F ["W"] ["U"]].

Definition int_parties : list request :=
  [party (IInt 0) ["P"] ["Q"]; party (IInt 1) ["Q"] ["R"];
   party (IInt 2) ["R"] ["P"]].

(** A giver with two offers that both match wants of the receiver. *)
Definition double_match_parties : list request :=
  [party A ["X"; "Y"] ["W"]; party B ["W"] ["Z"]; party C ["Z"] ["X"; "Y"]].

(** Documents of the store: the only offer row of the first user has no
    model and no version column. *)
Definition keyless_docs : list user_doc :=
  [ {| agency_id := A; user_name := Some "A";
       uploads := [ {| up_offers := [ {| MODELO := None; VERSION := None;
                                        full_name := None |} ];
                       up_wants := [] |} ] |};
    {| agency_id := B; user_name := Some "B";
       uploads := [ {| up_offers := [];
                       up_wants := [raw_asset "Civic" "LX"] |} ] |} ].

(** The three nodes, handed over as one component in the order of the
    graph. *)
Definition one_component (G : DiGraph) : list (list ident) := [[A; B; C]].

Definition line_AC : string := "A offers 'X' → to C".
Definition line_CB : string := "C offers 'Z' → to B".
Definition line_BA : string := "B offers 'Y' → to A".

Definition six_graph : DiGraph := graph_of six_parties.
Definition six_map : gmap ident request := make_request_map six_parties.
Definition two_components (G : DiGraph) : list (list ident) :=
  [[A; B; C]; [D; E; F]].

(** The ring of the parties 0, 1 and 2 beside the ring of A, B and C. *)
Definition ring_map : gmap ident request :=
  make_request_map (int_parties ++ three_parties).

Definition ring_cycles : list (list ident) :=
  [[IInt 0; IInt 2; IInt 1; IInt 0]; [A; C; B; A]].

Definition row_0 : cycle_record :=
  {| cycle_id := 0;
     exchange_path :=
       Str.join Str.newline
         ["0 offers 'P' → to 2"; "2 offers 'R' → to 1"; "1 offers 'Q' → to 0"] |}.

Definition row_1 : cycle_record :=
  {| cycle_id := 1;
     exchange_path := Str.join Str.newline [line_AC; line_CB; line_BA] |}.

(** Two parties none of whose offers the other wants. *)
Definition lonely_parties : list request :=
  [party A ["X"] ["Y"]; party B ["P"] ["Q"]].

(** The ring of the three parties with the want of C listed twice. *)
Definition double_want_parties : list request :=
  [party A ["X"] ["Y"]; party B ["Y"] ["Z"]; party C ["Z"] ["X"; "X"]].

(** The ring of the three parties with the offer of A listed twice. *)
Definition double_offer_parties : list request :=
  [party A ["X"; "X"] ["Y"]; party B ["Y"] ["Z"]; party C ["Z"] ["X"]].

(** A store of two agencies with complete rows; the second upload of the
    first agency wants what the second agency offers. *)
Definition civic_docs : list user_doc :=
  [ {| agency_id := A; user_name := Some "Ana";
       uploads := [ {| up_offers := [raw_asset "Civic" "LX "];
                       up_wants := [raw_asset "Golf" "GT"] |} ] |};
    {| agency_id := B; user_name := None;
       uploads := [ {| up_offers := [raw_asset " golf" "gt"];
                       up_wants := [raw_asset "CIVIC" "lx"] |} ] |} ].

Definition lonely_graph : DiGraph := {| nodes := [A; B]; adj := ∅ |}.

End Example.

(** * Properties *)

(** ** The result monad *)

Lemma bind_Ok {A B} (f : A → result B) (r : result A) (b : B) :
  r ≫= f = Ok b → ∃ a, r = Ok a ∧ f a = Ok b.
Proof. destruct r as [a|e]; simpl; [eauto | discriminate]. Qed.

(** Inversion of a monadic equation [x ← r; k x = Ok b] found in the
    hypotheses. *)
Ltac inv_bind H :=
  let a := fresh "a" in
  let Ha := fresh "Ha" in
  apply bind_Ok in H as (a & Ha & H).

(** ** The asset key normaliser *)

Module StrFacts.
Import Str.

Ltac ascii_cases c := destruct c as [[] [] [] [] [] [] [] []].

Lemma char_upper_idemp c : char_upper (char_upper c) = char_upper c.
Proof. ascii_cases c; reflexivity. Qed.

Lemma is_space_char_upper c : is_space (char_upper c) = is_space c.
Proof. ascii_cases c; reflexivity. Qed.

Lemma same_letter_upper c d : same_letter c d → char_upper c = char_upper d.
Proof.
  intros [->|[[_ ->]|[_ ->]]]; auto using char_upper_idemp.
Qed.

Lemma same_letter_space c d : same_letter c d → is_space c = is_space d.
Proof.
  intros [->|[[_ ->]|[_ ->]]]; auto using is_space_char_upper.
Qed.

Lemma rstrip_blank r : blank r = true → rstrip r = EmptyString.
Proof.
  induction r as [|c r IH]; simpl; [done|].
  intros [Hc Hr]%andb_prop. by rewrite IH, Hc.
Qed.

Lemma lstrip_app_blank l s : blank l = true → lstrip (l +:+ s) = lstrip s.
Proof.
  induction l as [|c l IH]; simpl; [done|].
  intros [Hc Hl]%andb_prop. rewrite Hc. auto.
Qed.

Lemma rstrip_app_blank s r : blank r = true → rstrip (s +:+ r) = rstrip s.
Proof.
  intros Hr. induction s as [|c s IH]; simpl.
  - by apply rstrip_blank.
  - by rewrite IH.
Qed.

Lemma lstrip_rstrip s : lstrip (rstrip s) = rstrip (lstrip s).
Proof.
  induction s as [|c s IH]; [done|].
  change (lstrip (String c s)) with (if is_space c then lstrip s else String c s).
  destruct (is_space c) eqn:Hc.
  - rewrite <- IH. simpl. rewrite Hc.
    destruct (rstrip s) as [|c' r']; [done|]. simpl. by rewrite Hc.
  - simpl. rewrite Hc.
    destruct (rstrip s) as [|c' r']; simpl; by rewrite Hc.
Qed.

(** Stripping forgets the padding. *)
Lemma strip_padded core s : padded core s → strip s = strip core.
Proof.
  intros (l & r & Hl & Hr & ->). unfold strip.
  rewrite lstrip_app_blank by done.
  rewrite <- !lstrip_rstrip. by rewrite rstrip_app_blank.
Qed.

Lemma case_variant_lstrip s t :
  case_variant s t → case_variant (lstrip s) (lstrip t).
Proof.
  induction 1 as [|c d s t Hcd Hst IH]; simpl; [constructor|].
  rewrite <- (same_letter_space c d Hcd).
  destruct (is_space c); [done|]. by constructor.
Qed.

Lemma case_variant_rstrip s t :
  case_variant s t → case_variant (rstrip s) (rstrip t).
Proof.
  induction 1 as [|c d s t Hcd Hst IH]; simpl; [constructor|].
  rewrite <- (same_letter_space c d Hcd).
  destruct IH as [|c' d' s' t' Hcd' Hst'].
  - destruct (is_space c); [constructor|].
    constructor; [done|constructor].
  - constructor; [done|]. by constructor.
Qed.

Lemma case_variant_upper s t : case_variant s t → upper s = upper t.
Proof.
  induction 1 as [|c d s t Hcd Hst IH]; simpl; [done|].
  by rewrite IH, (same_letter_upper c d Hcd).
Qed.

(** The normalised form [s.strip().upper()] is the same for two texts
    that differ only in case and outer whitespace. *)
Lemma normalize_same_text s t :
  same_text s t → upper (strip s) = upper (strip t).
Proof.
  intros (cs & ct & Hs & Ht & Hv).
  rewrite (strip_padded cs s Hs), (strip_padded ct t Ht).
  apply case_variant_upper. unfold strip.
  by apply case_variant_rstrip, case_variant_lstrip.
Qed.

Lemma eqb_refl_true s : String.eqb s s = true.
Proof. by apply String.eqb_eq. Qed.

End StrFacts.

(** ** The demand graph *)

Section graph_facts.

Lemma names_match_true o w :
  names_match o w = Ok true →
  ∃ ko kw, full_name o = Some ko ∧ full_name w = Some kw
           ∧ Str.lower ko = Str.lower kw.
Proof.
  unfold names_match, get_full_name.
  destruct (full_name o) as [ko|], (full_name w) as [kw|]; simpl; try done.
  intros [= H%String.eqb_eq]. eauto.
Qed.

Lemma any_want_true o ws :
  any_want o ws = Ok true → ∃ w, w ∈ ws ∧ names_match o w = Ok true.
Proof.
  induction ws as [|w ws IH]; simpl; [done|].
  intros H. inv_bind H. destruct a.
  - exists w. split; [left|done].
  - destruct (IH H) as (w' & ? & ?). exists w'. split; [by right|done].
Qed.

Lemma any_match_true os ws :
  any_match os ws = Ok true →
  ∃ o w, o ∈ os ∧ w ∈ ws ∧ names_match o w = Ok true.
Proof.
  induction os as [|o os IH]; simpl; [done|].
  intros H. inv_bind H. destruct a.
  - destruct (any_want_true _ _ Ha) as (w & ? & ?).
    exists o, w. split; [left|done].
  - destruct (IH H) as (o' & w & ? & ? & ?).
    exists o', w. split; [by right|done].
Qed.

Lemma successors_add_node n G u :
  successors (add_node n G) u = successors G u.
Proof. unfold add_node. by case_bool_decide. Qed.

Lemma successors_add_edge u v G x y :
  y ∈ successors (add_edge u v G) x →
  y ∈ successors G x ∨ (x = u ∧ y = v).
Proof.
  unfold add_edge. case_bool_decide as Hin.
  - rewrite !successors_add_node. auto.
  - unfold successors at 1. simpl.
    destruct (decide (u = x)) as [->|Hne].
    + rewrite lookup_insert_eq. simpl.
      rewrite !successors_add_node.
      intros [?|Hy%list_elem_of_singleton]%elem_of_app; auto.
    + rewrite lookup_insert_ne by done.
      fold (successors (add_node v (add_node u G)) x).
      rewrite !successors_add_node. auto.
Qed.

Lemma successors_add_nodes (reqs : list request) G u :
  successors (foldl (λ G req, add_node (id req) G) G reqs) u = successors G u.
Proof.
  revert G. induction reqs as [|r reqs IH]; intros G; simpl; [done|].
  by rewrite IH, successors_add_node.
Qed.

Variable requests : list request.

Lemma edges_from_sound req_a reqs G G' :
  req_a ∈ requests → reqs ⊆ requests →
  edges_sound requests G → edges_from req_a reqs G = Ok G' → edges_sound requests G'.
Proof.
  intros Ha. revert G.
  induction reqs as [|req_b reqs IH]; intros G Hsub HG; simpl.
  - by intros [= <-].
  - assert (Hb : req_b ∈ requests) by (apply Hsub; left).
    assert (Hsub' : reqs ⊆ requests) by (intros r ?; apply Hsub; by right).
    case_bool_decide as Hid; [by apply IH|].
    intros H. inv_bind H. apply IH in H; [done|done|].
    destruct a; [|done].
    intros u v [?|[-> ->]]%successors_add_edge; [by apply HG|].
    split; [done|].
    destruct (any_match_true _ _ Ha0) as (o & w & Ho & Hw & Hm).
    destruct (names_match_true _ _ Hm) as (ko & kw & ? & ? & ?).
    by exists req_a, req_b, o, w, ko, kw.
Qed.

Lemma edges_all_sound as_ G G' :
  as_ ⊆ requests →
  edges_sound requests G → edges_all as_ requests G = Ok G' → edges_sound requests G'.
Proof.
  revert G. induction as_ as [|req_a as_ IH]; intros G Hsub HG; simpl.
  - by intros [= <-].
  - intros H. inv_bind H. eapply IH; [|  |exact H].
    + intros r ?. apply Hsub. by right.
    + eapply edges_from_sound; [| |exact HG|exact Ha]; [|done].
      apply Hsub. left.
Qed.

(** Every edge of [build_graph requests] joins a giver to a receiver
    who wants one of the giver's offers. *)
Lemma build_graph_sound G : build_graph requests = Ok G → edges_sound requests G.
Proof.
  unfold build_graph. apply edges_all_sound; [done|].
  intros u v. rewrite successors_add_nodes. unfold successors. simpl.
  rewrite lookup_empty. simpl. by intros ?%elem_of_nil.
Qed.

End graph_facts.

(** On rows that all carry a key the builder raises nothing. *)
Lemma names_match_keyed o w : keyed o → keyed w → ∃ b, names_match o w = Ok b.
Proof.
  intros [ko Ho] [kw Hw]. unfold names_match, get_full_name.
  rewrite Ho, Hw. simpl. eauto.
Qed.

Lemma any_want_keyed o ws :
  keyed o → Forall keyed ws → ∃ b, any_want o ws = Ok b.
Proof.
  intros Ho. induction 1 as [|w ws Hw _ [b IH]]; simpl; [eauto|].
  destruct (names_match_keyed o w Ho Hw) as [[] ->]; simpl; eauto.
Qed.

Lemma any_match_keyed os ws :
  Forall keyed os → Forall keyed ws → ∃ b, any_match os ws = Ok b.
Proof.
  intros Hos Hws. induction Hos as [|o os Ho _ [b IH]]; simpl; [eauto|].
  destruct (any_want_keyed o ws Ho Hws) as [[] ->]; simpl; eauto.
Qed.

Lemma edges_from_keyed req_a reqs G :
  Forall keyed (offers req_a) → Forall (λ r, Forall keyed (wants r)) reqs →
  ∃ G', edges_from req_a reqs G = Ok G'.
Proof.
  intros Ha Hreqs. revert G.
  induction Hreqs as [|req_b reqs Hb _ IH]; intros G; simpl; [eauto|].
  case_bool_decide; [apply IH|].
  destruct (any_match_keyed _ _ Ha Hb) as [b ->]. simpl. apply IH.
Qed.

Lemma edges_all_keyed as_ requests G :
  all_keyed as_ → all_keyed requests →
  ∃ G', edges_all as_ requests G = Ok G'.
Proof.
  intros Has Hreqs. revert G.
  induction Has as [|req_a as_ [Ha _] _ IH]; intros G; simpl; [eauto|].
  destruct (edges_from_keyed req_a requests G Ha) as [G' ->]; [|apply IH].
  eapply Forall_impl; [exact Hreqs|]. by intros r [_ ?].
Qed.

Lemma build_graph_keyed requests :
  all_keyed requests → ∃ G, build_graph requests = Ok G.
Proof. intros H. by apply edges_all_keyed. Qed.

(** The loader gives a key to every row that has a model and a version. *)
Lemma add_full_name_keyed a :
  keyed a ∨ (is_Some (MODELO a) ∧ is_Some (VERSION a)) ↔ keyed (add_full_name a).
Proof.
  unfold keyed, add_full_name.
  destruct (full_name a) as [k|] eqn:Hk, (MODELO a) as [m|], (VERSION a) as [v|];
    simpl; rewrite ?Hk; split; intros H;
    repeat match goal with
           | H : _ ∨ _ |- _ => destruct H
           | H : _ ∧ _ |- _ => destruct H
           | H : is_Some None |- _ => by destruct H
           end; eauto.
Qed.

(** The edges of a subgraph are edges of the graph. *)
Lemma successors_subgraph G component u v :
  v ∈ successors (subgraph G component) u → v ∈ successors G u.
Proof.
  unfold successors, subgraph. simpl.
  rewrite map_lookup_filter, lookup_fmap.
  destruct (adj G !! u) as [vs|]; simpl; [|by intros ?%elem_of_nil].
  case_guard; simpl; [|by intros ?%elem_of_nil].
  by intros [? ?]%list_elem_of_filter.
Qed.

(** ** The conflict check *)

Section conflict_facts.

Lemma grows_by_refl used Q : grows_by used used Q.
Proof. split; [done|auto]. Qed.

Lemma grows_by_trans used1 used2 used3 (Q1 Q2 Q : ident * string → Prop) :
  (∀ p, Q1 p → Q p) → (∀ p, Q2 p → Q p) →
  grows_by used1 used2 Q1 → grows_by used2 used3 Q2 → grows_by used1 used3 Q.
Proof.
  intros H1 H2 [Hs1 Hq1] [Hs2 Hq2]. split; [set_solver|].
  intros p Hp. destruct (Hq2 p Hp) as [Hp'|?]; [|auto].
  destruct (Hq1 p Hp'); auto.
Qed.

Lemma consecutive_cons x c u v : consecutive c u v → consecutive (x :: c) u v.
Proof. intros (i & ? & ?). by exists (S i). Qed.

Lemma consecutive_head u v c : consecutive (u :: v :: c) u v.
Proof. by exists 0. Qed.

Lemma consecutive_elem_l c u v : consecutive c u v → u ∈ c.
Proof. intros (i & ? & _). by eapply list_elem_of_lookup_2. Qed.

Lemma conflict_wants_marks g o ws used ret used' :
  conflict_wants g o ws used = Ok (ret, used') →
  grows_by used used' (λ p, p.1 = g ∧ offer_matches o ws p.2)
  ∧ (ret = false → ∀ k, offer_matches o ws k → (g, k) ∈ used').
Proof.
  revert used. induction ws as [|w ws IH]; intros used; simpl.
  - intros [= <- <-]. split; [apply grows_by_refl|].
    intros _ k (_ & w & []%elem_of_nil & _).
  - intros H. inv_bind H. destruct a.
    + inv_bind H. case_bool_decide as Hin.
      { injection H as <- <-. split; [apply grows_by_refl|done]. }
      assert (Hk : full_name o = Some a).
      { unfold get_full_name in Ha0. by destruct (full_name o); simplify_eq. }
      destruct (IH _ H) as [Hg Hall]. split.
      * eapply (grows_by_trans used ({[(g, a)]} ∪ used)); [| |split|exact Hg].
        -- intros p Hp. exact Hp.
        -- intros p (? & ? & w' & ? & ?). split; [done|].
           split; [done|]. exists w'. split; [by right|done].
        -- apply union_subseteq_r.
        -- intros p [->%elem_of_singleton|?]%elem_of_union; [|by left].
           right. split; [done|]. split; [done|].
           exists w. split; [left|done].
      * intros -> k [Hk' _]. rewrite Hk in Hk'. injection Hk' as <-.
        destruct Hg as [Hsub _]. apply Hsub, elem_of_union_l.
        by apply elem_of_singleton.
    + destruct (IH _ H) as [Hg Hall]. split.
      * eapply (grows_by_trans used used used' (λ _, False));
          [| |apply grows_by_refl|exact Hg].
        -- intros p [].
        -- intros p (? & ? & w' & ? & ?). split; [done|].
           split; [done|]. exists w'. split; [by right|done].
      * intros Hret k (Hk & w' & [->|Hw']%elem_of_cons & Hm); [congruence|].
        apply Hall; [done|]. split; [done|]. by exists w'.
Qed.

Lemma conflict_offers_marks g os ws used ret used' :
  conflict_offers g os ws used = Ok (ret, used') →
  grows_by used used' (λ p, p.1 = g ∧ ∃ o, o ∈ os ∧ offer_matches o ws p.2)
  ∧ (ret = false → ∀ o k, o ∈ os → offer_matches o ws k → (g, k) ∈ used').
Proof.
  revert used. induction os as [|o os IH]; intros used; simpl.
  - intros [= <- <-]. split; [apply grows_by_refl|].
    intros _ o k []%elem_of_nil.
  - intros H. inv_bind H. destruct a as [ret1 used1].
    destruct (conflict_wants_marks _ _ _ _ _ _ Ha) as [Hg1 Hall1].
    assert (Hstep : grows_by used used1
              (λ p, p.1 = g ∧ ∃ o', o' ∈ o :: os ∧ offer_matches o' ws p.2)).
    { destruct Hg1 as [? Hq]. split; [done|]. intros p Hp.
      destruct (Hq p Hp) as [?|[? ?]]; [by left|right].
      split; [done|]. exists o. split; [left|done]. }
    destruct ret1.
    + injection H as <- <-. done.
    + destruct (IH _ H) as [Hg Hall]. split.
      * eapply grows_by_trans; [| |exact Hstep|exact Hg].
        -- intros p Hp. exact Hp.
        -- intros p (? & o' & ? & ?). split; [done|].
           exists o'. split; [by right|done].
      * intros Hret o' k [->|Ho']%elem_of_cons Hm.
        -- destruct Hg as [Hsub _]. apply Hsub. by apply Hall1.
        -- by eapply Hall.
Qed.

Lemma get_request_Ok request_map k r :
  get_request request_map k = Ok r → request_map !! k = Some r.
Proof. unfold get_request. by destruct (request_map !! k); intros [= ->]. Qed.

(** What one call of the conflict check does to the tracker, whatever it
    returns; and that after a [False] every matching offer of every step
    is marked. *)
Lemma violates_offer_conflict_marks cycle request_map used ret used' :
  violates_offer_conflict cycle request_map used = Ok (ret, used') →
  grows_by used used' (step_offer request_map cycle)
  ∧ (ret = false → ∀ p, step_offer request_map cycle p → p ∈ used').
Proof.
  revert used. induction cycle as [|g rest IH]; intros used.
  - simpl. intros [= <- <-]. split; [apply grows_by_refl|].
    intros _ p (r & ? & ? & ? & (i & Hi & _) & _). done.
  - destruct rest as [|r rest'].
    { simpl. intros [= <- <-]. split; [apply grows_by_refl|].
      intros _ p (r & ? & ? & ? & (i & _ & Hi) & _). done. }
    cbn [violates_offer_conflict].
    intros H. inv_bind H. rename a into giver, Ha into Hgiver.
    inv_bind H. rename a into receiver, Ha into Hreceiver.
    inv_bind H. destruct a as [ret1 used1].
    apply get_request_Ok in Hgiver, Hreceiver.
    destruct (conflict_offers_marks _ _ _ _ _ _ Ha) as [Hg1 Hall1].
    assert (Hstep : grows_by used used1 (step_offer request_map (g :: r :: rest'))).
    { destruct Hg1 as [? Hq]. split; [done|]. intros p Hp.
      destruct (Hq p Hp) as [?|(Hp1 & o & ? & ?)]; [by left|right].
      exists r, giver, receiver, o. rewrite Hp1.
      split; [apply consecutive_head|done]. }
    destruct ret1.
    + injection H as <- <-. done.
    + destruct (IH _ H) as [Hg Hall]. split.
      * eapply grows_by_trans; [| |exact Hstep|exact Hg].
        -- intros p Hp. exact Hp.
        -- intros p (r' & gv & rc & o & Hc & ?).
           exists r', gv, rc, o. split; [by apply consecutive_cons|done].
      * intros Hret p (r' & gv & rc & o & ([|i] & Hi1 & Hi2) & Hgv & Hrc & Ho & Hm).
        -- simpl in Hi1, Hi2. simplify_eq.
           destruct Hg as [Hsub _]. apply Hsub.
           destruct p as [pg pk]. simpl in *. by eapply Hall1.
        -- apply Hall; [done|].
           exists r', gv, rc, o. split; [by exists i|done].
Qed.

(** After a [False] the tracker holds what it held before and every
    matching offer of every step of the cycle, the first match of a step
    and the later ones alike. *)
Lemma violates_offer_conflict_accepts cycle request_map used used' p :
  violates_offer_conflict cycle request_map used = Ok (false, used') →
  p ∈ used' ↔ p ∈ used ∨ step_offer request_map cycle p.
Proof.
  intros [[Hsub Hq] Hall]%violates_offer_conflict_marks. split; [apply Hq|].
  intros [?|?]; [by apply Hsub|by apply Hall].
Qed.

End conflict_facts.

(** ** The acceptance step and the search *)

Lemma initial_state_ok P : state_ok P initial_state.
Proof.
  split; simpl.
  - intros c n []%elem_of_nil.
  - intros i j c1 c2 n _ Hi. by rewrite lookup_nil in Hi.
  - intros c []%elem_of_nil.
Qed.

Lemma existsb_used_false (used : gset ident) (cycle : list ident) :
  existsb (λ node, bool_decide (node ∈ used)) cycle = false →
  ∀ n, n ∈ cycle → n ∉ used.
Proof.
  induction cycle as [|x cycle IH]; simpl; [by intros _ n ?%elem_of_nil|].
  intros [Hx Hrest]%orb_false_elim n [->|Hn]%elem_of_cons; [|by apply IH].
  by apply bool_decide_eq_false in Hx.
Qed.

Lemma consecutive_snoc l x u v :
  consecutive (l ++ [x]) u v → consecutive l u v ∨ (last l = Some u ∧ v = x).
Proof.
  intros (i & Hi & HSi).
  apply lookup_snoc_Some in HSi as [[Hlt HSi]|[Hlen <-]].
  - left. exists i. split; [|done].
    rewrite lookup_app_l in Hi by lia. done.
  - right. split; [|done]. rewrite last_lookup, <- Hlen. simpl.
    rewrite lookup_app_l in Hi by lia. done.
Qed.

Section run_facts.

Variable P : list ident → Prop.

(** The acceptance step keeps the invariant. *)
Lemma accept_cycle_ok cycle request_map st st' :
  P cycle → state_ok P st →
  accept_cycle cycle request_map st = Ok st' → state_ok P st'.
Proof.
  intros HP [Hused Hdisj Heach]. unfold accept_cycle.
  destruct (existsb _ cycle) eqn:Hfree; [by intros [= <-]|].
  pose proof (existsb_used_false _ _ Hfree) as Hfresh.
  intros H. inv_bind H. destruct a as [[] used']; injection H as <-.
  { by split. }
  split; simpl.
  - intros c n [Hc| ->%list_elem_of_singleton]%elem_of_app Hn.
    + apply elem_of_union_l. by eapply Hused.
    + by apply elem_of_union_r, elem_of_list_to_set.
  - intros i j c1 c2 n Hij
      [Hi|[Hi ->]]%lookup_snoc_Some [Hj|[Hj ->]]%lookup_snoc_Some Hn1 Hn2.
    + destruct Hi, Hj. by eapply (Hdisj i j c1 c2 n).
    + destruct Hi as [_ Hi]. apply (Hfresh n Hn2).
      eapply Hused; [|exact Hn1]. by eapply list_elem_of_lookup_2.
    + destruct Hj as [_ Hj]. apply (Hfresh n Hn1).
      eapply Hused; [|exact Hn2]. by eapply list_elem_of_lookup_2.
    + lia.
  - intros c [Hc| ->%list_elem_of_singleton]%elem_of_app; auto.
Qed.

Lemma greedy_scan_ok cycles request_map st st' :
  (∀ c, c ∈ cycles → P c) → state_ok P st →
  greedy_scan cycles request_map st = Ok st' → state_ok P st'.
Proof.
  revert st. induction cycles as [|c cycles IH]; intros st HP Hst; simpl.
  - by intros [= <-].
  - intros H. inv_bind H. eapply IH; [| |exact H].
    + intros c' ?. apply HP. by right.
    + eapply accept_cycle_ok; [|exact Hst|exact Ha]. apply HP. left.
Qed.

End run_facts.

Section search_facts.

Variable edge : ident → ident → Prop.

Lemma scan_successors_ok start node path max_len neighbors request_map
    stack st stack' st' :
  (∀ v, v ∈ neighbors → edge node v) →
  frame_ok edge start (node, path) →
  Forall (frame_ok edge start) stack → state_ok (is_cycle edge) st →
  scan_successors start path max_len neighbors request_map stack st
    = Ok (stack', st') →
  Forall (frame_ok edge start) stack' ∧ state_ok (is_cycle edge) st'.
Proof.
  intros Hedge ([ps Hps] & Hlast & Hnodup & Hpath). simpl in *.
  revert stack.
  induction neighbors as [|nb nbs IH]; intros stack Hstack Hst;
    cbn [scan_successors].
  - by intros [= <- <-].
  - assert (Hnb : edge node nb) by (apply Hedge; left).
    assert (Hnbs : ∀ v, v ∈ nbs → edge node v) by (intros v ?; apply Hedge; by right).
    destruct (bool_decide (nb = start) && (3 <=? length path)) eqn:Hclose.
    + apply andb_prop in Hclose as [->%bool_decide_eq_true Hlen%Nat.leb_le].
      intros H. inv_bind H. injection H as <- <-. split; [done|].
      eapply accept_cycle_ok; [|exact Hst|exact Ha].
      exists start, ps. rewrite <- Hps. split; [done|]. split; [done|].
      split; [done|]. intros u v [?|[Hu ->]]%consecutive_snoc; [auto|].
      rewrite Hlast in Hu. by injection Hu as <-.
    + destruct (bool_decide (nb ∉ path) && _) eqn:Hpush; [|by apply IH].
      apply andb_prop in Hpush as [Hfresh%bool_decide_eq_true _].
      apply IH; [done| |done]. constructor; [|done].
      split; [|split; [|split]]; simpl.
      * exists (ps ++ [nb]). by rewrite Hps.
      * apply last_snoc.
      * apply NoDup_app. split; [done|]. split; [|apply NoDup_singleton].
        by intros x Hx ->%list_elem_of_singleton.
      * intros u v [?|[Hu ->]]%consecutive_snoc; [auto|].
        rewrite Hlast in Hu. by injection Hu as <-.
Qed.

Lemma search_while_ok fuel sg start max_len request_map stack st st' :
  (∀ u v, v ∈ successors sg u → edge u v) →
  Forall (frame_ok edge start) stack → state_ok (is_cycle edge) st →
  search_while fuel sg start max_len request_map stack st = Some (Ok st') →
  state_ok (is_cycle edge) st'.
Proof.
  intros Hsg. revert stack st.
  induction fuel as [|fuel IH]; intros [|[node path] stack] st Hstack Hst; simpl;
    try done; try by intros [= <-].
  destruct (scan_successors _ _ _ _ _ _ _) as [[stack'' st'']|e] eqn:Hscan;
    [|done].
  apply Forall_cons in Hstack as [Hfr Hstack].
  destruct (scan_successors_ok _ _ _ _ _ _ _ _ _ _
              (λ v, Hsg node v) Hfr Hstack Hst Hscan) as [? ?].
  by apply IH.
Qed.

Lemma search_starts_ok fuel sg starts max_len request_map st st' :
  (∀ u v, v ∈ successors sg u → edge u v) →
  state_ok (is_cycle edge) st →
  search_starts fuel sg starts max_len request_map st = Some (Ok st') →
  state_ok (is_cycle edge) st'.
Proof.
  intros Hsg. revert st. induction starts as [|start starts IH]; intros st Hst; simpl.
  - by intros [= <-].
  - destruct (search_while _ _ _ _ _ _ _) as [[st1|e]|] eqn:Hwhile; try done.
    apply IH. eapply search_while_ok; [done| |done|exact Hwhile].
    constructor; [|constructor].
    split; [by exists []|]. split; [done|]. split; [apply NoDup_singleton|].
    intros u v ([|i] & ? & ?); done.
Qed.

End search_facts.

Lemma search_components_ok fuel G components max_len request_map st st' :
  state_ok (is_cycle (edge_of G)) st →
  search_components fuel G components max_len request_map st = Some (Ok st') →
  state_ok (is_cycle (edge_of G)) st'.
Proof.
  revert st. induction components as [|comp comps IH]; intros st Hst; simpl.
  - by intros [= <-].
  - destruct (search_starts _ _ _ _ _ _) as [[st1|e]|] eqn:Hstarts; try done.
    apply IH. eapply search_starts_ok; [|done|exact Hstarts].
    intros u v. apply successors_subgraph.
Qed.

(** ** Termination of the exhaustive search *)

Section termination.

Lemma successors_length G n : length (successors G n) ≤ max_degree G.
Proof.
  unfold successors, max_degree.
  destruct (adj G !! n) as [vs|] eqn:Hn; simpl; [|lia].
  apply max_list_elem_of_le, list_elem_of_fmap.
  exists vs. split; [done|]. apply list_elem_of_fmap.
  exists (n, vs). split; [done|]. by apply elem_of_map_to_list.
Qed.

Lemma successors_subgraph_length G component n :
  length (successors (subgraph G component) n) ≤ max_degree G.
Proof.
  etrans; [|apply (successors_length G n)].
  unfold successors, subgraph. simpl.
  rewrite map_lookup_filter, lookup_fmap.
  destruct (adj G !! n) as [vs|]; simpl; [|lia].
  case_guard; simpl; [apply length_filter|lia].
Qed.

Variable B : nat.
Variable max_len : Z.

Lemma frame_weight_children path :
  1 + B * child_weight B max_len path ≤ frame_weight B (depth_left max_len path).
Proof.
  unfold child_weight, depth_left.
  destruct (Z.ltb_spec (Z.of_nat (length path)) max_len) as [Hlt|Hge].
  - destruct (Z.to_nat (max_len - Z.of_nat (length path))) as [|k] eqn:Hk; [lia|].
    simpl. lia.
  - destruct (Z.to_nat (max_len - Z.of_nat (length path))); simpl; lia.
Qed.

Lemma scan_successors_weight start path neighbors request_map stack st stack' st' :
  scan_successors start path max_len neighbors request_map stack st
    = Ok (stack', st') →
  stack_weight B max_len stack'
    ≤ stack_weight B max_len stack + length neighbors * child_weight B max_len path.
Proof.
  revert stack. induction neighbors as [|nb nbs IH]; intros stack;
    cbn [scan_successors length].
  - intros [= <- <-]. lia.
  - destruct (bool_decide (nb = start) && (3 <=? length path)).
    { intros H. inv_bind H. injection H as <- <-. lia. }
    destruct (bool_decide (nb ∉ path) && _) eqn:Hpush.
    + apply andb_prop in Hpush as [_ Hlt]. intros H. apply IH in H.
      unfold stack_weight in H at 2. rewrite fmap_cons in H. simpl in H.
      fold (stack_weight B max_len stack) in H.
      assert (depth_left max_len (path ++ [nb]) = pred (depth_left max_len path)) as Hd.
      { unfold depth_left. rewrite length_app. simpl. lia. }
      rewrite Hd in H. unfold child_weight in *. rewrite Hlt in *. lia.
    + intros H. apply IH in H. lia.
Qed.

Lemma search_while_terminates fuel sg start request_map stack st :
  (∀ n, length (successors sg n) ≤ B) →
  stack_weight B max_len stack < fuel →
  is_Some (search_while fuel sg start max_len request_map stack st).
Proof.
  intros HB. revert stack st.
  induction fuel as [|fuel IH]; intros [|[node path] stack] st Hw; simpl;
    try done; try lia.
  destruct (scan_successors _ _ _ _ _ _ _) as [[stack'' st'']|e] eqn:Hscan;
    [|done].
  apply IH. apply scan_successors_weight in Hscan.
  unfold stack_weight in Hw. rewrite fmap_cons in Hw. simpl in Hw.
  fold (stack_weight B max_len stack) in Hw.
  pose proof (frame_weight_children path) as Hc.
  pose proof (HB node) as Hn.
  assert (length (successors sg node) * child_weight B max_len path ≤ B * child_weight B max_len path)
    by (apply Nat.mul_le_mono_r; done).
  lia.
Qed.

Lemma search_starts_terminates fuel sg starts request_map st :
  (∀ n, length (successors sg n) ≤ B) →
  frame_weight B (Z.to_nat (max_len - 1)) < fuel →
  is_Some (search_starts fuel sg starts max_len request_map st).
Proof.
  intros HB Hfuel. revert st. induction starts as [|start starts IH]; intros st; simpl;
    [done|].
  destruct (search_while_terminates fuel sg start request_map [(start, [start])] st HB)
    as [[st'|e] Hr].
  - unfold stack_weight, depth_left. simpl.
    change (Z.of_nat 1) with 1%Z. lia.
  - rewrite Hr. apply IH.
  - by rewrite Hr.
Qed.

End termination.

Section fuel.

Variable connected_components : DiGraph → list (list ident).

Lemma search_components_terminates fuel G components max_len request_map st :
  enough_fuel G max_len ≤ fuel →
  is_Some (search_components fuel G components max_len request_map st).
Proof.
  intros Hfuel. revert st.
  induction components as [|comp comps IH]; intros st; simpl; [done|].
  destruct (search_starts_terminates (max_degree G) max_len fuel
              (subgraph G comp) comp request_map st) as [[st'|e] Hr].
  - intros n. apply successors_subgraph_length.
  - unfold enough_fuel in Hfuel. lia.
  - rewrite Hr. apply IH.
  - by rewrite Hr.
Qed.

(** The exhaustive strategy returns: with enough fuel every loop of the
    search runs to its end. *)
Lemma sample_cycles_exhaustive_terminates fuel G request_map max_len :
  enough_fuel G max_len ≤ fuel →
  is_Some (sample_cycles_exhaustive connected_components fuel G request_map max_len).
Proof.
  intros Hfuel. unfold sample_cycles_exhaustive.
  destruct (search_components_terminates fuel G (connected_components G)
              max_len request_map initial_state Hfuel) as [[st|e] ->]; done.
Qed.

(** More fuel does not change a result. *)
Lemma search_while_mono fuel fuel' sg start max_len request_map stack st r :
  fuel ≤ fuel' →
  search_while fuel sg start max_len request_map stack st = Some r →
  search_while fuel' sg start max_len request_map stack st = Some r.
Proof.
  revert fuel' stack st.
  induction fuel as [|fuel IH]; intros [|fuel'] [|[node path] stack] st Hle; simpl;
    try done; try lia.
  destruct (scan_successors _ _ _ _ _ _ _) as [[stack'' st'']|e]; [|done].
  apply IH. lia.
Qed.

Lemma search_starts_mono fuel fuel' sg starts max_len request_map st r :
  fuel ≤ fuel' →
  search_starts fuel sg starts max_len request_map st = Some r →
  search_starts fuel' sg starts max_len request_map st = Some r.
Proof.
  intros Hle. revert st. induction starts as [|start starts IH]; intros st; simpl;
    [done|].
  destruct (search_while fuel _ _ _ _ _ _) as [r1|] eqn:Hw; [|done].
  rewrite (search_while_mono _ _ _ _ _ _ _ _ _ Hle Hw).
  destruct r1; [apply IH|done].
Qed.

Lemma search_components_mono fuel fuel' G components max_len request_map st r :
  fuel ≤ fuel' →
  search_components fuel G components max_len request_map st = Some r →
  search_components fuel' G components max_len request_map st = Some r.
Proof.
  intros Hle. revert st.
  induction components as [|comp comps IH]; intros st; simpl; [done|].
  destruct (search_starts fuel _ _ _ _ _) as [r1|] eqn:Hs; [|done].
  rewrite (search_starts_mono _ _ _ _ _ _ _ _ Hle Hs).
  destruct r1; [apply IH|done].
Qed.

Lemma sample_cycles_exhaustive_mono fuel fuel' G request_map max_len r :
  fuel ≤ fuel' →
  sample_cycles_exhaustive connected_components fuel G request_map max_len = Some r →
  sample_cycles_exhaustive connected_components fuel' G request_map max_len = Some r.
Proof.
  intros Hle. unfold sample_cycles_exhaustive.
  destruct (search_components fuel _ _ _ _ _) as [r1|] eqn:Hs; [|done].
  by rewrite (search_components_mono _ _ _ _ _ _ _ _ Hle Hs).
Qed.

(** The result of the exhaustive strategy does not depend on the fuel. *)
Lemma sample_cycles_exhaustive_det fuel1 fuel2 G request_map max_len r1 r2 :
  sample_cycles_exhaustive connected_components fuel1 G request_map max_len = Some r1 →
  sample_cycles_exhaustive connected_components fuel2 G request_map max_len = Some r2 →
  r1 = r2.
Proof.
  intros H1 H2.
  apply (sample_cycles_exhaustive_mono _ (fuel1 `max` fuel2)) in H1; [|lia].
  apply (sample_cycles_exhaustive_mono _ (fuel1 `max` fuel2)) in H2; [|lia].
  congruence.
Qed.

End fuel.

(** ** What the strategies return *)

Section returns.

Variable connected_components : DiGraph → list (list ident).
Variable simple_cycles : DiGraph → list (list ident).

Lemma insert_by_len_elem c d sorted :
  c ∈ insert_by_len d sorted → c = d ∨ c ∈ sorted.
Proof.
  induction sorted as [|e sorted IH]; simpl.
  - intros ->%list_elem_of_singleton. by left.
  - destruct (length d <? length e).
    + intros [->|Hc]%elem_of_cons; [right; left|].
      destruct (IH Hc); [by left|right; by right].
    + intros [->|Hc]%elem_of_cons; [by left|by right].
Qed.

Lemma sort_by_len_desc_elem c cycles :
  c ∈ sort_by_len_desc cycles → c ∈ cycles.
Proof.
  induction cycles as [|d cycles IH]; simpl; [done|].
  intros [->|Hc]%insert_by_len_elem; [left|right; auto].
Qed.

(** A list without repetition of three or more nodes does not end with
    its first node. *)
Lemma NoDup_not_first_is_last c :
  NoDup c → 3 ≤ length c → first_is_last c = false.
Proof.
  intros Hnd Hlen. unfold first_is_last.
  destruct c as [|a [|b c]]; simpl in Hlen; try lia.
  rewrite last_cons_cons. cbn [head].
  destruct (last (b :: c)) as [z|] eqn:Hlast; [|done].
  apply bool_decide_eq_false. intros ->.
  apply NoDup_cons in Hnd as [Hz _]. by apply Hz, last_Some_elem_of.
Qed.

(** The candidates of line 108 for one component. *)
Lemma greedy_filter_empty cycles :
  (∀ c, c ∈ cycles → NoDup c) →
  filter (λ c, 3 ≤ length c ∧ first_is_last c = true) cycles = [].
Proof.
  induction cycles as [|c cycles IH]; intros Hnd; [done|].
  rewrite filter_cons. case_decide as Hc.
  - destruct Hc as [Hlen Hfl].
    rewrite NoDup_not_first_is_last in Hfl; [done| |done]. apply Hnd. left.
  - apply IH. intros c' ?. apply Hnd. by right.
Qed.

Lemma greedy_components_ok P G components request_map st st' :
  (∀ comp c, c ∈ simple_cycles (subgraph G comp) →
     3 ≤ length c → first_is_last c = true → P c) →
  state_ok P st →
  greedy_components simple_cycles G components request_map st = Ok st' →
  state_ok P st'.
Proof.
  intros HP. revert st.
  induction components as [|comp comps IH]; intros st Hst; simpl.
  - by intros [= <-].
  - intros H. inv_bind H. eapply IH; [|exact H].
    unfold greedy_component in Ha.
    eapply greedy_scan_ok; [|exact Hst|exact Ha].
    intros c [[? ?] ?]%sort_by_len_desc_elem%list_elem_of_filter. eauto.
Qed.

Lemma greedy_returns_ok P G request_map max_len cycles :
  (∀ comp c, c ∈ simple_cycles (subgraph G comp) →
     3 ≤ length c → first_is_last c = true → P c) →
  greedy_returns connected_components simple_cycles G request_map max_len cycles →
  disjoint_cycles cycles ∧ ∀ c, c ∈ cycles → P c.
Proof.
  intros HP H. unfold greedy_returns, sample_cycles_greedy in H.
  inv_bind H. injection H as <-.
  eapply greedy_components_ok in Ha as [_ ? ?]; [done|exact HP|].
  apply initial_state_ok.
Qed.

Lemma exhaustive_returns_ok G request_map max_len cycles :
  exhaustive_returns connected_components G request_map max_len cycles →
  disjoint_cycles cycles ∧ ∀ c, c ∈ cycles → is_cycle (edge_of G) c.
Proof.
  intros [fuel H]. unfold sample_cycles_exhaustive in H.
  destruct (search_components _ _ _ _ _ _) as [[st|e]|] eqn:Hs; try done.
  injection H as <-.
  eapply search_components_ok in Hs as [_ ? ?]; [done|].
  apply initial_state_ok.
Qed.

(** The exhaustive strategy does return, a list or an exception. *)
Lemma exhaustive_returns_or_raises G request_map max_len :
  (∃ cycles, exhaustive_returns connected_components G request_map max_len cycles)
  ∨ (∃ fuel e, sample_cycles_exhaustive connected_components fuel G
                 request_map max_len = Some (Raise e)).
Proof.
  destruct (sample_cycles_exhaustive_terminates connected_components
              (enough_fuel G max_len) G request_map max_len) as [[cs|e] H];
    [done| |].
  - left. exists cs. by exists (enough_fuel G max_len).
  - right. by exists (enough_fuel G max_len), e.
Qed.

(** With the cycles reported the way networkx reports them, the filter
    of line 108 keeps no candidate: the greedy strategy raises nothing and
    returns the empty list. *)
Lemma greedy_components_empty G components request_map st :
  simple_cycles_spec simple_cycles →
  greedy_components simple_cycles G components request_map st = Ok st.
Proof.
  intros Hspec. induction components as [|comp comps IH]; simpl; [done|].
  unfold greedy_component. rewrite greedy_filter_empty; [exact IH|].
  intros c Hc. by eapply Hspec.
Qed.

Lemma sample_cycles_greedy_empty G request_map max_len :
  simple_cycles_spec simple_cycles →
  sample_cycles_greedy connected_components simple_cycles G request_map max_len
  = Ok [].
Proof.
  intros Hspec. unfold sample_cycles_greedy.
  by rewrite greedy_components_empty.
Qed.

Lemma greedy_returns_nothing G request_map max_len cycles :
  simple_cycles_spec simple_cycles →
  greedy_returns connected_components simple_cycles G request_map max_len cycles → cycles = [].
Proof.
  intros Hspec H. unfold greedy_returns in H.
  rewrite sample_cycles_greedy_empty in H by done. by injection H.
Qed.

End returns.

Lemma is_cycle_mono (edge edge' : ident → ident → Prop) c :
  (∀ u v, edge u v → edge' u v) → is_cycle edge c → is_cycle edge' c.
Proof.
  intros Himp (p0 & ps & ? & ? & ? & Hedges). exists p0, ps. eauto 10.
Qed.

Lemma spanning_cycles_spec : simple_cycles_spec spanning_cycles.
Proof.
  intros sg c [[Hnd _]%andb_prop _]%list_elem_of_filter.
  by apply bool_decide_eq_true in Hnd.
Qed.

(** * The claims *)

(** ** C1: the three-party ring *)

Section three_party.
Import Example.

Lemma three_graph_built : build_graph three_parties = Ok three_graph.
Proof. vm_compute. reflexivity. Qed.

Lemma concat_nil_inv (ls : list (list ident)) :
  (∀ l, l ∈ ls → l ≠ []) → length (concat ls) = 0 → ls = [].
Proof.
  destruct ls as [|l ls]; [done|]. intros Hne. simpl. rewrite length_app.
  assert (l ≠ []) by (apply Hne; left). destruct l; [done|simpl; lia].
Qed.

(** The graph of the three parties is one component. *)
Lemma three_graph_single_component components :
  components_spec three_graph components →
  ∃ ns, components = [ns] ∧ ns ∈ permutations [A; B; C].
Proof.
  intros [Hpart Hne Hclosed]. change (nodes three_graph) with [A; B; C] in Hpart.
  assert (Hnd : NoDup (concat components)).
  { rewrite Hpart. compute_done. }
  assert (HA : A ∈ concat components) by (rewrite Hpart; left).
  apply list_elem_of_In, in_concat in HA as (c & Hc%list_elem_of_In & HAc%list_elem_of_In).
  assert (HCc : C ∈ c).
  { apply (Hclosed c A C Hc HAc). left. vm_compute. left. }
  assert (HBc : B ∈ c).
  { apply (Hclosed c C B Hc HCc). left. vm_compute. left. }
  destruct (list_elem_of_split _ _ Hc) as (l1 & l2 & ->).
  rewrite concat_app, concat_cons in Hpart, Hnd.
  apply NoDup_app in Hnd as (_ & _ & Hnd). apply NoDup_app in Hnd as (Hndc & _ & _).
  assert (Hsub : [A; B; C] ⊆+ c).
  { apply NoDup_submseteq; [compute_done|].
    intros x Hx. repeat (apply elem_of_cons in Hx as [->|Hx]); try done.
    by apply elem_of_nil in Hx. }
  apply submseteq_length in Hsub. simpl in Hsub.
  pose proof (Permutation_length Hpart) as Hlen.
  rewrite !length_app in Hlen. simpl in Hlen.
  assert (l1 = []) as ->.
  { apply concat_nil_inv; [|lia]. intros l Hl. apply Hne, elem_of_app. by left. }
  assert (l2 = []) as ->.
  { apply concat_nil_inv; [|lia]. intros l Hl. apply Hne, elem_of_app.
    right. by right. }
  exists c. split; [done|]. apply permutations_Permutation.
  simpl in Hpart. rewrite app_nil_r in Hpart. by symmetry.
Qed.

(** C1, as stated, fails: on the three parties (A offers X wants Y, B
    offers Y wants Z, C offers Z wants X) the exhaustive strategy does not
    return a rotation of [A,B,C,A]. The graph has the edges A to C, C to B
    and B to A, because A's X is wanted by C; a run returns [A,C,B,A] and
    no line of its description sends A's X to B. With cycles reported as
    networkx reports them, the greedy strategy returns no cycle at all. *)
Lemma three_party_ring_not_ABC :
  build_graph three_parties = Ok three_graph
  ∧ sample_cycles_exhaustive one_component 100 three_graph three_map default_max_len
      = Some (Ok [[A; C; B; A]])
  ∧ ¬ (∃ cycles k,
         exhaustive_returns one_component three_graph three_map default_max_len cycles
         ∧ cycles = [close_cycle (rotate k [A; B; C])])
  ∧ describe_steps [A; C; B; A] three_map = Ok [line_AC; line_CB; line_BA]
  ∧ ("A offers 'X' → to B" ∉ [line_AC; line_CB; line_BA])
  ∧ sample_cycles_greedy one_component spanning_cycles three_graph three_map default_max_len
      = Ok [].
Proof.
  assert (Hrun : sample_cycles_exhaustive one_component 100 three_graph three_map default_max_len
                 = Some (Ok [[A; C; B; A]])) by (vm_compute; reflexivity).
  split; [exact three_graph_built|]. split; [exact Hrun|]. split; [|split; [|split]].
  - intros (cycles & k & [fuel Hret] & ->).
    pose proof (sample_cycles_exhaustive_det _ _ _ _ _ _ _ _ Hret Hrun) as Heq.
    injection Heq as Heq. unfold close_cycle, rotate in Heq. simpl length in Heq.
    pose proof (Nat.mod_upper_bound k 3 ltac:(lia)) as Hk.
    destruct (k `mod` 3) as [|[|[|?]]]; simpl in Heq; try discriminate; lia.
  - vm_compute. reflexivity.
  - compute_done.
  - vm_compute. reflexivity.
Qed.

(** C1, amended: on the three parties the exhaustive strategy, called
    with its default depth bound, returns exactly one cycle, [A,C,B,A] or a
    rotation of it, and its description is made of the lines "A offers 'X'
    → to C", "C offers 'Z' → to B" and "B offers 'Y' → to A" in the order
    in which the cycle is walked. *)
Theorem three_party_ring_exhaustive (connected_components : DiGraph → list (list ident)) :
  components_spec three_graph (connected_components three_graph) →
  build_graph three_parties = Ok three_graph
  ∧ ∃ k,
      exhaustive_returns connected_components three_graph three_map default_max_len
        [close_cycle (rotate k [A; C; B])]
      ∧ describe_cycles [close_cycle (rotate k [A; C; B])] three_map
        = Ok ([ {| cycle_id := 0;
                   exchange_path :=
                     Str.join Str.newline (rotate k [line_AC; line_CB; line_BA]) |} ],
              []).
Proof.
  intros (ns & Hcc & Hns)%three_graph_single_component.
  split; [exact three_graph_built|].
  unfold exhaustive_returns, sample_cycles_exhaustive. rewrite Hcc. clear Hcc.
  vm_compute in Hns.
  repeat (apply elem_of_cons in Hns as [->|Hns]); [..|by apply elem_of_nil in Hns].
  all: first
    [ exists 0; split; [exists 100|]; vm_compute; reflexivity
    | exists 1; split; [exists 100|]; vm_compute; reflexivity
    | exists 2; split; [exists 100|]; vm_compute; reflexivity ].
Qed.

Lemma three_graph_successors_outside v :
  v ∉ [A; B; C] → successors three_graph v = [].
Proof.
  intros Hv. unfold successors, three_graph. simpl.
  rewrite !lookup_insert_ne, lookup_empty; [done|..];
    intros <-; apply Hv; compute_done.
Qed.

Lemma one_component_spec : components_spec three_graph (one_component three_graph).
Proof.
  split.
  - done.
  - by intros c ->%list_elem_of_singleton.
  - intros c u v ->%list_elem_of_singleton Hu [Hv|Hv].
    + repeat (apply elem_of_cons in Hu as [->|Hu]); [..|by apply elem_of_nil in Hu].
      * change (v ∈ [C]) in Hv. apply list_elem_of_singleton in Hv as ->. compute_done.
      * change (v ∈ [A]) in Hv. apply list_elem_of_singleton in Hv as ->. compute_done.
      * change (v ∈ [B]) in Hv. apply list_elem_of_singleton in Hv as ->. compute_done.
    + destruct (decide (v ∈ [A; B; C])) as [|Hout]; [done|].
      rewrite (three_graph_successors_outside v Hout) in Hv.
      by apply elem_of_nil in Hv.
Qed.

Lemma three_party_ring_exhaustive_witness :
  build_graph three_parties = Ok three_graph
  ∧ ∃ k,
      exhaustive_returns one_component three_graph three_map default_max_len
        [close_cycle (rotate k [A; C; B])]
      ∧ describe_cycles [close_cycle (rotate k [A; C; B])] three_map
        = Ok ([ {| cycle_id := 0;
                   exchange_path :=
                     Str.join Str.newline (rotate k [line_AC; line_CB; line_BA]) |} ],
              []).
Proof.
  exact (three_party_ring_exhaustive one_component one_component_spec).
Defined.

End three_party.

(** ** C2, C3, C4: what every run returns *)

Lemma six_graph_built :
  build_graph Example.six_parties = Ok Example.six_graph.
Proof. vm_compute. reflexivity. Qed.

(** C2. Every cycle returned by either strategy is a sequence
    [p0, ..., pk-1, p0] that ends with its first node, has at least three
    distinct inner nodes, and whose consecutive pairs are edges of the
    graph of [build_graph]: the giver offers an asset whose identity key
    equals, ignoring case, the key of a want of the receiver. *)
Theorem returned_cycles_are_demand_cycles
    (connected_components simple_cycles : DiGraph → list (list ident))
    (requests : list request) (G : DiGraph) (request_map : gmap ident request)
    (max_len : Z) (cycles : list (list ident)) (c : list ident) :
  build_graph requests = Ok G →
  simple_cycles_spec simple_cycles →
  greedy_returns connected_components simple_cycles G request_map max_len cycles
  ∨ exhaustive_returns connected_components G request_map max_len cycles →
  c ∈ cycles →
  is_cycle (demand requests) c.
Proof.
  intros HG Hsc [Hgreedy|Hex] Hc.
  - apply greedy_returns_nothing in Hgreedy; [|done]. subst cycles.
    by apply elem_of_nil in Hc.
  - apply exhaustive_returns_ok in Hex as [_ Hcyc].
    eapply is_cycle_mono; [|by apply Hcyc].
    intros u v Huv. by eapply build_graph_sound.
Qed.

Lemma returned_cycles_are_demand_cycles_witness :
  is_cycle (demand Example.six_parties) [Example.D; Example.F; Example.E; Example.D].
Proof.
  apply (returned_cycles_are_demand_cycles
           Example.two_components spanning_cycles Example.six_parties
           Example.six_graph Example.six_map 10
           [[Example.A; Example.C; Example.B; Example.A];
            [Example.D; Example.F; Example.E; Example.D]]).
  - vm_compute. reflexivity.
  - exact spanning_cycles_spec.
  - right. exists 100. vm_compute. reflexivity.
  - right. left.
Defined.

(** C4. In the list returned by either strategy no participant id occurs
    in two cycles: the nodes of two cycles at different positions of the
    list are disjoint. *)
Theorem participants_at_most_once
    (connected_components simple_cycles : DiGraph → list (list ident))
    (G : DiGraph) (request_map : gmap ident request)
    (max_len : Z) (cycles : list (list ident)) :
  greedy_returns connected_components simple_cycles G request_map max_len cycles
  ∨ exhaustive_returns connected_components G request_map max_len cycles →
  disjoint_cycles cycles.
Proof.
  intros [Hgreedy|Hex].
  - by apply (greedy_returns_ok _ _ (λ _, True)) in Hgreedy as [? _].
  - by apply exhaustive_returns_ok in Hex as [? _].
Qed.

Lemma participants_at_most_once_witness :
  disjoint_cycles [[Example.A; Example.C; Example.B; Example.A];
                   [Example.D; Example.F; Example.E; Example.D]].
Proof.
  apply (participants_at_most_once Example.two_components spanning_cycles
           Example.six_graph Example.six_map 10).
  right. exists 100. vm_compute. reflexivity.
Defined.

Lemma gift_giver request_map cycle p : gift request_map cycle p → p.1 ∈ cycle.
Proof. intros (r & _ & _ & _ & Hc & _). by eapply consecutive_elem_l. Qed.

(** C3. In the list returned by either strategy no pair of a participant
    id and an asset key is the gift of a step in two cycles: the gift of a
    step, derived as [describe_cycles] derives it, is not the gift of any
    step of a cycle at another position of the list. *)
Theorem gifts_at_most_once
    (connected_components simple_cycles : DiGraph → list (list ident))
    (G : DiGraph) (request_map : gmap ident request)
    (max_len : Z) (cycles : list (list ident))
    (i j : nat) (c1 c2 : list ident) (p : ident * string) :
  greedy_returns connected_components simple_cycles G request_map max_len cycles
  ∨ exhaustive_returns connected_components G request_map max_len cycles →
  i ≠ j → cycles !! i = Some c1 → cycles !! j = Some c2 →
  gift request_map c1 p → ¬ gift request_map c2 p.
Proof.
  intros Hrun Hij Hi Hj Hp1 Hp2.
  assert (Hdisj : disjoint_cycles cycles).
  { destruct Hrun as [Hgreedy|Hex].
    - by apply (greedy_returns_ok _ _ (λ _, True)) in Hgreedy as [? _].
    - by apply exhaustive_returns_ok in Hex as [? _]. }
  apply (Hdisj i j c1 c2 p.1 Hij Hi Hj); by eapply gift_giver.
Qed.

Lemma gifts_at_most_once_witness :
  gift Example.six_map [Example.A; Example.C; Example.B; Example.A] (Example.A, "X")
  ∧ ¬ gift Example.six_map [Example.D; Example.F; Example.E; Example.D] (Example.A, "X").
Proof.
  assert (Hgift : gift Example.six_map
                    [Example.A; Example.C; Example.B; Example.A] (Example.A, "X")).
  { exists Example.C, (Example.party Example.A ["X"] ["Y"]),
      (Example.party Example.C ["Z"] ["X"]), (Example.item "X").
    split; [by exists 0|]. repeat split; vm_compute; reflexivity. }
  split; [exact Hgift|].
  apply (gifts_at_most_once Example.two_components spanning_cycles
           Example.six_graph Example.six_map 10
           [[Example.A; Example.C; Example.B; Example.A];
            [Example.D; Example.F; Example.E; Example.D]]
           0 1 [Example.A; Example.C; Example.B; Example.A]
           [Example.D; Example.F; Example.E; Example.D] (Example.A, "X")).
  - right. exists 100. vm_compute. reflexivity.
  - lia.
  - reflexivity.
  - reflexivity.
  - exact Hgift.
Defined.

(** ** C5, C6: the conflict check *)


(** The marks a call leaves, by the matches it meets. *)












(** C6 against the code: the giver A has two offers, X and Y, that both
    match wants of the receiver C. The check accepts the cycle [A,C,B,A]
    and marks (A, "X") and (A, "Y"), while [describe_cycles] names X, the
    first match, as the gift of that step. *)
Lemma accepted_cycle_marks_every_match :
  violates_offer_conflict [Example.A; Example.C; Example.B; Example.A]
    (make_request_map Example.double_match_parties) ∅
  = Ok (false, {[ (Example.A, "X"); (Example.A, "Y");
                  (Example.C, "Z"); (Example.B, "W") ]})
  ∧ matching_offer (Example.item <$> ["X"; "Y"]) (Example.item <$> ["X"; "Y"])
    = Ok (Some (Example.item "X"))
  ∧ describe_cycles [[Example.A; Example.C; Example.B; Example.A]]
      (make_request_map Example.double_match_parties)
    = Ok ([ {| cycle_id := 0;
               exchange_path :=
                 Str.join Str.newline
                   ["A offers 'X' → to C"; "C offers 'Z' → to B";
                    "B offers 'W' → to A"] |} ], []).
Proof. repeat split; vm_compute; reflexivity. Qed.

(** ** C7: the filtered table *)

Lemma describe_from_filter n cycles request_map all_rows user_rows :
  describe_from n cycles request_map = Ok (all_rows, user_rows) →
  (∀ r, r ∈ all_rows → n ≤ cycle_id r)
  ∧ ∀ r, r ∈ user_rows ↔
         r ∈ all_rows ∧ ∃ c, cycles !! (cycle_id r - n) = Some c ∧ self_id ∈ c.
Proof.
  revert n all_rows user_rows.
  induction cycles as [|cycle cycles IH]; intros n all_rows user_rows;
    cbn [describe_from].
  - intros [= <- <-]. split; [by intros r ?%elem_of_nil|].
    intros r. split; [by intros ?%elem_of_nil|by intros [?%elem_of_nil _]].
  - assert (Hshift : ∀ r, S n ≤ cycle_id r →
              (cycle :: cycles) !! (cycle_id r - n) = cycles !! (cycle_id r - S n)).
    { intros r Hr. by replace (cycle_id r - n) with (S (cycle_id r - S n)) by lia. }
    destruct ((length cycle <? 3) || negb (first_is_last cycle)).
    + intros [Hge Hiff]%IH. split; [intros r Hr%Hge; lia|].
      intros r. rewrite Hiff. split.
      * intros [Hr Hc]. split; [done|]. by rewrite Hshift by auto.
      * intros [Hr Hc]. split; [done|]. by rewrite <- Hshift by auto.
    + intros H. inv_bind H. inv_bind H. destruct a0 as [all_rest user_rest].
      injection H as <- <-. apply IH in Ha0 as [Hge Hiff].
      set (rec := {| cycle_id := n; exchange_path := _ |}).
      split.
      { intros r [->|Hr%Hge]%elem_of_cons; simpl; lia. }
      intros r. split.
      * intros Hr.
        assert (r = rec ∧ self_id ∈ cycle ∨ r ∈ user_rest) as [[-> Hself]|Hr'].
        { case_bool_decide; [|by right].
          apply elem_of_cons in Hr as [->|Hr]; [by left|by right]. }
        -- split; [left|]. exists cycle. simpl. by rewrite Nat.sub_diag.
        -- apply Hiff in Hr' as [Hr' Hc]. split; [by right|].
           by rewrite Hshift by auto.
      * intros [[->|Hr]%elem_of_cons (c & Hc & Hself)].
        -- simpl in Hc. rewrite Nat.sub_diag in Hc. injection Hc as <-.
           rewrite bool_decide_eq_true_2 by done. left.
        -- rewrite Hshift in Hc by auto.
           assert (r ∈ user_rest) by (apply Hiff; eauto).
           case_bool_decide; [by right|done].
Qed.

(** C7. The second table returned by [describe_cycles] holds exactly the
    rows of the first table whose cycle contains the designated
    participant id (the id [0] of line 163): a row of the first table is
    in the second one if and only if that id occurs in the node sequence
    the row was made from. *)
Theorem self_filter_exact
    (cycles : list (list ident)) (request_map : gmap ident request)
    (all_rows user_rows : list cycle_record) (r : cycle_record) :
  describe_cycles cycles request_map = Ok (all_rows, user_rows) →
  r ∈ user_rows ↔
  r ∈ all_rows ∧ ∃ c, cycles !! cycle_id r = Some c ∧ self_id ∈ c.
Proof.
  intros [_ Hiff]%describe_from_filter. rewrite Hiff.
  by rewrite Nat.sub_0_r.
Qed.

Lemma self_filter_exact_witness :
  Example.row_0 ∈ [Example.row_0] ↔
  Example.row_0 ∈ [Example.row_0; Example.row_1]
  ∧ ∃ c, Example.ring_cycles !! cycle_id Example.row_0 = Some c ∧ self_id ∈ c.
Proof.
  apply (self_filter_exact Example.ring_cycles Example.ring_map).
  vm_compute. reflexivity.
Defined.

(** ** C8: keyless rows *)

(** C8 against the code: the loader lets a row without model and version
    through without an identity key, and the graph builder raises a
    KeyError when it compares that row with a want of another
    participant. *)
Lemma build_graph_raises_on_keyless_row :
  (full_name <$> (load_all_requests_from_mongo Example.keyless_docs ≫= offers)) = [None]
  ∧ build_graph (load_all_requests_from_mongo Example.keyless_docs) = Raise KeyError.
Proof. split; vm_compute; reflexivity. Qed.

(** ** C9: the identity key *)

(** C9. Two asset rows whose model and version texts differ only in letter
    case and in leading or trailing whitespace get, from the loader, one
    and the same identity key, and that key passes the comparison used by
    the graph builder and by the conflict check. *)
Theorem identity_key_case_and_space_insensitive (m1 v1 m2 v2 : string) :
  Str.same_text m1 m2 → Str.same_text v1 v2 →
  full_name (add_full_name (raw_asset m1 v1))
    = full_name (add_full_name (raw_asset m2 v2))
  ∧ is_Some (full_name (add_full_name (raw_asset m1 v1)))
  ∧ names_match (add_full_name (raw_asset m1 v1))
                (add_full_name (raw_asset m2 v2)) = Ok true.
Proof.
  intros Hm Hv. unfold names_match, get_full_name, add_full_name. simpl.
  rewrite (StrFacts.normalize_same_text m1 m2 Hm).
  rewrite (StrFacts.normalize_same_text v1 v2 Hv).
  split; [done|]. split; [by eexists|].
  by rewrite StrFacts.eqb_refl_true.
Qed.

Ltac same_letter_tac :=
  first [ left; reflexivity
        | right; left; split; reflexivity
        | right; right; split; reflexivity ].

(** The rows [{Civic, "LX "}] and [{CIVIC, lx}] are the same good. *)
Lemma identity_key_civic_lx :
  Str.same_text "Civic" "CIVIC" ∧ Str.same_text "LX " "lx"
  ∧ full_name (add_full_name (raw_asset "Civic" "LX ")) = Some "CIVIC - LX"
  ∧ full_name (add_full_name (raw_asset "CIVIC" "lx")) = Some "CIVIC - LX"
  ∧ names_match (add_full_name (raw_asset "Civic" "LX "))
                (add_full_name (raw_asset "CIVIC" "lx")) = Ok true.
Proof.
  assert (Hm : Str.same_text "Civic" "CIVIC").
  { exists "Civic", "CIVIC". repeat split.
    - by exists "", "".
    - by exists "", "".
    - repeat (constructor; [same_letter_tac|]). constructor. }
  assert (Hv : Str.same_text "LX " "lx").
  { exists "LX", "lx". repeat split.
    - by exists "", " ".
    - by exists "", "".
    - repeat (constructor; [same_letter_tac|]). constructor. }
  split; [exact Hm|]. split; [exact Hv|].
  split; [reflexivity|]. split; [reflexivity|].
  exact (proj2 (proj2 (identity_key_case_and_space_insensitive
                         "Civic" "LX " "CIVIC" "lx" Hm Hv))).
Defined.

(** ** C10: the depth bound of the greedy strategy *)

(** C10. The list returned by the greedy strategy is the same for any two
    values of the depth bound. *)
Theorem greedy_ignores_max_len
    (connected_components simple_cycles : DiGraph → list (list ident))
    (G : DiGraph) (request_map : gmap ident request) (m1 m2 : Z) :
  sample_cycles_greedy connected_components simple_cycles G request_map m1
  = sample_cycles_greedy connected_components simple_cycles G request_map m2.
Proof. reflexivity. Qed.

(** * Further lemmas *)

(** ** The graph builder: nodes and edges *)

Lemma add_node_present n G : n ∈ nodes G → add_node n G = G.
Proof. intros Hn. unfold add_node. by rewrite bool_decide_eq_true_2. Qed.

Lemma nodes_add_node n G x : x ∈ nodes (add_node n G) ↔ x = n ∨ x ∈ nodes G.
Proof.
  unfold add_node. case_bool_decide as Hn; simpl.
  - split; [auto|]. by intros [->|?].
  - rewrite elem_of_app, list_elem_of_singleton. tauto.
Qed.

Lemma add_node_wf n G : graph_wf G → graph_wf (add_node n G).
Proof.
  intros [Hnd Hs He]. unfold add_node. case_bool_decide as Hn; [done|].
  split; simpl.
  - apply NoDup_app. split; [done|]. split; [|apply NoDup_singleton].
    by intros x Hx ->%list_elem_of_singleton.
  - exact Hs.
  - intros u v Huv. destruct (He u v Huv). rewrite !elem_of_app. auto.
Qed.

Lemma successors_add_edge_new u v G : v ∈ successors (add_edge u v G) u.
Proof.
  unfold add_edge. case_bool_decide as Hin; [done|].
  unfold successors at 1. simpl. rewrite lookup_insert_eq. simpl.
  apply elem_of_app. right. by apply list_elem_of_singleton.
Qed.

Lemma successors_add_edge_old u v G x y :
  y ∈ successors G x → y ∈ successors (add_edge u v G) x.
Proof.
  intros Hy. unfold add_edge. case_bool_decide as Hin.
  - by rewrite !successors_add_node.
  - unfold successors at 1. simpl. destruct (decide (u = x)) as [->|Hne].
    + rewrite lookup_insert_eq. simpl. rewrite !successors_add_node.
      apply elem_of_app. by left.
    + rewrite lookup_insert_ne by done.
      fold (successors (add_node v (add_node u G)) x).
      by rewrite !successors_add_node.
Qed.

Lemma nodes_add_edge u v G :
  u ∈ nodes G → v ∈ nodes G → nodes (add_edge u v G) = nodes G.
Proof.
  intros Hu Hv. unfold add_edge.
  rewrite (add_node_present u G Hu), (add_node_present v G Hv).
  by case_bool_decide.
Qed.

Lemma add_edge_wf u v G : graph_wf G → graph_wf (add_edge u v G).
Proof.
  intros HG. unfold add_edge.
  pose proof (add_node_wf v _ (add_node_wf u _ HG)) as [Hnd Hs He].
  set (G' := add_node v (add_node u G)) in *.
  assert (Hu : u ∈ nodes G').
  { apply nodes_add_node. right. apply nodes_add_node. by left. }
  assert (Hv : v ∈ nodes G') by (apply nodes_add_node; by left).
  case_bool_decide as Hin; [done|].
  split; simpl; [done| |].
  - intros x. unfold successors. simpl. destruct (decide (u = x)) as [->|Hne].
    + rewrite lookup_insert_eq. simpl. apply NoDup_app.
      split; [apply Hs|]. split; [|apply NoDup_singleton].
      by intros y Hy ->%list_elem_of_singleton.
    + rewrite lookup_insert_ne by done. apply Hs.
  - intros x y. unfold successors. simpl. destruct (decide (u = x)) as [->|Hne].
    + rewrite lookup_insert_eq. simpl.
      intros [Hy| ->%list_elem_of_singleton]%elem_of_app; [by apply He|done].
    + rewrite lookup_insert_ne by done. apply He.
Qed.

Lemma empty_graph_wf : graph_wf empty_graph.
Proof.
  split; simpl.
  - constructor.
  - intros u. unfold successors. simpl. rewrite lookup_empty. constructor.
  - intros u v. unfold successors. simpl. rewrite lookup_empty.
    by intros ?%elem_of_nil.
Qed.

Lemma add_nodes_wf (reqs : list request) G :
  graph_wf G → graph_wf (foldl (λ G req, add_node (id req) G) G reqs).
Proof.
  revert G. induction reqs as [|r reqs IH]; intros G HG; simpl; [done|].
  by apply IH, add_node_wf.
Qed.

Lemma nodes_add_nodes (reqs : list request) G x :
  x ∈ nodes (foldl (λ G req, add_node (id req) G) G reqs)
  ↔ x ∈ nodes G ∨ ∃ r, r ∈ reqs ∧ id r = x.
Proof.
  revert G. induction reqs as [|r reqs IH]; intros G; simpl.
  - split; [auto|]. intros [?|(r & []%elem_of_nil & _)]. done.
  - rewrite IH, nodes_add_node. split.
    + intros [[->|?]|(r' & ? & ?)]; [right|by left|right].
      * exists r. split; [left|done].
      * exists r'. split; [by right|done].
    + intros [?|(r' & [->|?]%elem_of_cons & Hr')]; [by left; right| |].
      * left. left. done.
      * right. by exists r'.
Qed.

Section builder_facts.

Variable requests : list request.

Lemma any_want_false o ws w :
  any_want o ws = Ok false → w ∈ ws → names_match o w = Ok false.
Proof.
  induction ws as [|w' ws IH]; simpl; [by intros _ ?%elem_of_nil|].
  intros H Hw. inv_bind H. destruct a; [done|].
  apply elem_of_cons in Hw as [->|Hw]; auto.
Qed.

Lemma any_match_false os ws o w :
  any_match os ws = Ok false → o ∈ os → w ∈ ws → names_match o w = Ok false.
Proof.
  induction os as [|o' os IH]; simpl; [by intros _ ?%elem_of_nil|].
  intros H Ho Hw. inv_bind H. destruct a; [done|].
  apply elem_of_cons in Ho as [->|Ho]; [by eapply any_want_false|auto].
Qed.

Lemma edges_from_complete N req_a reqs G G' :
  req_a ∈ requests → reqs ⊆ requests →
  (∀ r, r ∈ requests → id r ∈ N) →
  builder_inv requests N G → edges_from req_a reqs G = Ok G' →
  builder_inv requests N G'
  ∧ (∀ x y, y ∈ successors G x → y ∈ successors G' x)
  ∧ ∀ req_b o w,
      req_b ∈ reqs → id req_a ≠ id req_b →
      o ∈ offers req_a → w ∈ wants req_b → names_match o w = Ok true →
      id req_b ∈ successors G' (id req_a).
Proof.
  intros Ha Hsub HN. revert G.
  induction reqs as [|req_b reqs IH]; intros G HG; simpl.
  - intros [= <-]. split; [done|]. split; [done|].
    by intros req_b o w ?%elem_of_nil.
  - assert (Hb : req_b ∈ requests) by (apply Hsub; left).
    assert (Hsub' : reqs ⊆ requests) by (intros r ?; apply Hsub; by right).
    case_bool_decide as Hid.
    + intros H. destruct (IH Hsub' G HG H) as (Hinv & Hmono & Hall).
      split; [done|]. split; [done|].
      intros req_b' o w [->|Hb']%elem_of_cons Hne; [done|]. by apply Hall.
    + intros H. inv_bind H. rename a into b, Ha0 into Hany.
      set (G1 := if b then add_edge (id req_a) (id req_b) G else G) in H.
      assert (HG1 : builder_inv requests N G1).
      { destruct HG as (Hwf & HnN & Hsound). subst G1. destruct b; [|done].
        split; [by apply add_edge_wf|]. split.
        - rewrite nodes_add_edge; [done|rewrite HnN; auto..].
        - intros u v [?|[-> ->]]%successors_add_edge; [by apply Hsound|].
          split; [done|].
          destruct (any_match_true _ _ Hany) as (o & w & Ho & Hw & Hm).
          destruct (names_match_true _ _ Hm) as (ko & kw & ? & ? & ?).
          by exists req_a, req_b, o, w, ko, kw. }
      destruct (IH Hsub' G1 HG1 H) as (Hinv & Hmono & Hall).
      split; [done|]. split.
      { intros x y Hxy. apply Hmono. subst G1. destruct b; [|done].
        by apply successors_add_edge_old. }
      intros req_b' o w [->|Hb']%elem_of_cons Hne Ho Hw Hm; [|by eapply Hall].
      apply Hmono. subst G1. destruct b; [apply successors_add_edge_new|].
      pose proof (any_match_false _ _ o w Hany Ho Hw). congruence.
Qed.

Lemma edges_all_complete N as_ G G' :
  as_ ⊆ requests →
  (∀ r, r ∈ requests → id r ∈ N) →
  builder_inv requests N G → edges_all as_ requests G = Ok G' →
  builder_inv requests N G'
  ∧ (∀ x y, y ∈ successors G x → y ∈ successors G' x)
  ∧ ∀ req_a req_b o w,
      req_a ∈ as_ → req_b ∈ requests → id req_a ≠ id req_b →
      o ∈ offers req_a → w ∈ wants req_b → names_match o w = Ok true →
      id req_b ∈ successors G' (id req_a).
Proof.
  intros Hsub HN. revert G.
  induction as_ as [|req_a as_ IH]; intros G HG; simpl.
  - intros [= <-]. split; [done|]. split; [done|].
    by intros req_a req_b o w ?%elem_of_nil.
  - assert (Ha : req_a ∈ requests) by (apply Hsub; left).
    assert (Hsub' : as_ ⊆ requests) by (intros r ?; apply Hsub; by right).
    intros H. inv_bind H. rename a into G1, Ha0 into Hfrom.
    destruct (edges_from_complete N req_a requests G G1 Ha ltac:(done) HN HG Hfrom)
      as (HG1 & Hmono1 & Hall1).
    destruct (IH Hsub' G1 HG1 H) as (Hinv & Hmono & Hall).
    split; [done|]. split; [by auto|].
    intros req_a' req_b o w [->|Ha']%elem_of_cons Hb Hne Ho Hw Hm.
    + apply Hmono. by eapply Hall1.
    + by eapply Hall.
Qed.

Lemma build_graph_inv G :
  build_graph requests = Ok G →
  graph_wf G
  ∧ (∀ n, n ∈ nodes G ↔ ∃ r, r ∈ requests ∧ id r = n)
  ∧ ∀ u v, v ∈ successors G u ↔ demand requests u v.
Proof.
  unfold build_graph. intros H.
  set (G0 := foldl (λ G req, add_node (id req) G) empty_graph requests) in H.
  assert (Hnodes : ∀ n, n ∈ nodes G0 ↔ ∃ r, r ∈ requests ∧ id r = n).
  { intros n. unfold G0. rewrite nodes_add_nodes. simpl. split.
    - by intros [?%elem_of_nil|?].
    - auto. }
  assert (HG0 : builder_inv requests (nodes G0) G0).
  { split; [apply add_nodes_wf, empty_graph_wf|]. split; [done|].
    intros u v. unfold G0. rewrite successors_add_nodes. unfold successors. simpl.
    rewrite lookup_empty. by intros ?%elem_of_nil. }
  destruct (edges_all_complete (nodes G0) requests G0 G ltac:(done)
              ltac:(intros r ?; apply Hnodes; eauto) HG0 H)
    as ((Hwf & HnN & Hsound) & _ & Hall).
  split; [done|]. split; [by rewrite HnN|].
  intros u v. split; [apply Hsound|].
  intros (Hne & req_a & req_b & o & w & ko & kw
          & Ha & Hb & <- & <- & Ho & Hw & Hko & Hkw & Hl).
  eapply Hall; try done.
  unfold names_match, get_full_name. rewrite Hko, Hkw. simpl.
  by rewrite Hl, StrFacts.eqb_refl_true.
Qed.

End builder_facts.

(** ** The request map *)

Lemma bind_Ok_l {A B} (f : A → result B) (a : A) : Ok a ≫= f = f a.
Proof. reflexivity. Qed.

Lemma request_map_fold (requests : list request) (m : gmap ident request) i :
  foldl (λ m r, <[id r := r]> m) m requests !! i
  = match last (filter (λ r, id r = i) requests) with
    | Some r => Some r
    | None => m !! i
    end.
Proof.
  revert m. induction requests as [|r requests IH]; intros m; simpl; [done|].
  rewrite IH, filter_cons. case_decide as Hid.
  - rewrite last_cons. destruct (last (filter _ requests)); [done|].
    subst i. by rewrite lookup_insert_eq.
  - destruct (last (filter _ requests)); [done|].
    by rewrite lookup_insert_ne.
Qed.

Lemma make_request_map_last (requests : list request) i :
  make_request_map requests !! i = last (filter (λ r, id r = i) requests).
Proof.
  unfold make_request_map. rewrite request_map_fold, lookup_empty.
  by destruct (last _).
Qed.

Lemma make_request_map_Some (requests : list request) i r :
  make_request_map requests !! i = Some r → r ∈ requests ∧ id r = i.
Proof.
  rewrite make_request_map_last. intros Hl%last_Some_elem_of.
  apply list_elem_of_filter in Hl as [? ?]. done.
Qed.

Lemma make_request_map_is_Some (requests : list request) i :
  is_Some (make_request_map requests !! i) ↔ ∃ r, r ∈ requests ∧ id r = i.
Proof.
  split.
  - intros [r Hr]. exists r. by apply make_request_map_Some.
  - intros (r & Hr & Hid). rewrite make_request_map_last.
    apply last_is_Some. intros Hnil.
    by eapply (filter_nil_not_elem_of _ _ r Hnil).
Qed.

Lemma make_request_map_keyed (requests : list request) :
  all_keyed requests → map_keyed (make_request_map requests).
Proof.
  intros Hall i r [Hr _]%make_request_map_Some.
  unfold all_keyed in Hall. rewrite Forall_forall in Hall. by apply Hall.
Qed.

(** ** The conflict check: what a [False] rules out *)

Section conflict_more.

Lemma offer_matches_cons_ne o w ws k :
  names_match o w = Ok false → offer_matches o (w :: ws) k → offer_matches o ws k.
Proof.
  intros Hw (Hk & w' & [->|Hw']%elem_of_cons & Hm); [congruence|].
  split; [done|]. by exists w'.
Qed.

Lemma conflict_wants_fresh g o ws used used' k :
  conflict_wants g o ws used = Ok (false, used') →
  offer_matches o ws k → (g, k) ∉ used.
Proof.
  revert used. induction ws as [|w ws IH]; intros used; simpl.
  - intros _ (_ & w & []%elem_of_nil & _).
  - intros H Hk. inv_bind H. destruct a.
    + inv_bind H. case_bool_decide as Hin; [done|].
      assert (a = k) as ->.
      { destruct Hk as [Hk _]. unfold get_full_name in Ha0.
        rewrite Hk in Ha0. by injection Ha0. }
      done.
    + eapply IH; [exact H|]. by eapply offer_matches_cons_ne.
Qed.

Lemma conflict_wants_once g o ws used used' i j w1 w2 :
  conflict_wants g o ws used = Ok (false, used') →
  i ≠ j → ws !! i = Some w1 → ws !! j = Some w2 →
  names_match o w1 = Ok true → names_match o w2 = Ok true → False.
Proof.
  revert used i j. induction ws as [|w ws IH]; intros used i j; simpl; [done|].
  intros H Hij Hi Hj Hm1 Hm2. inv_bind H. destruct a.
  - inv_bind H. case_bool_decide as Hin; [done|].
    assert (Hk : full_name o = Some a).
    { unfold get_full_name in Ha0. by destruct (full_name o); simplify_eq. }
    assert (Hlater : ∀ w', w' ∈ ws → names_match o w' = Ok true → False).
    { intros w' Hw' Hm'.
      eapply (conflict_wants_fresh g o ws _ _ a H).
      - split; [done|]. by exists w'.
      - apply elem_of_union_l. by apply elem_of_singleton. }
    destruct i as [|i], j as [|j]; simpl in Hi, Hj; try done.
    + eapply Hlater; [|exact Hm2]. by eapply list_elem_of_lookup_2.
    + eapply Hlater; [|exact Hm1]. by eapply list_elem_of_lookup_2.
    + eapply (IH _ i j H); eauto.
  - destruct i as [|i], j as [|j]; simpl in Hi, Hj.
    + done.
    + injection Hi as ->. congruence.
    + injection Hj as ->. congruence.
    + eapply (IH _ i j H); eauto.
Qed.

Lemma conflict_offers_fresh g os ws used used' o k :
  conflict_offers g os ws used = Ok (false, used') →
  o ∈ os → offer_matches o ws k → (g, k) ∉ used.
Proof.
  revert used. induction os as [|o' os IH]; intros used; simpl.
  - by intros _ ?%elem_of_nil.
  - intros H Ho Hk. inv_bind H. destruct a as [[] used1]; [done|].
    apply elem_of_cons in Ho as [->|Ho].
    + by eapply conflict_wants_fresh.
    + destruct (conflict_wants_marks _ _ _ _ _ _ Ha) as [[Hsub _] _].
      intros Hin. by eapply (IH _ H Ho Hk), Hsub.
Qed.

Lemma conflict_offers_once g os ws used used' :
  conflict_offers g os ws used = Ok (false, used') →
  (∀ o i j w1 w2, o ∈ os → i ≠ j → ws !! i = Some w1 → ws !! j = Some w2 →
     names_match o w1 = Ok true → names_match o w2 = Ok true → False)
  ∧ (∀ i j o1 o2 k, i ≠ j → os !! i = Some o1 → os !! j = Some o2 →
       offer_matches o1 ws k → offer_matches o2 ws k → False).
Proof.
  revert used. induction os as [|o' os IH]; intros used; simpl.
  - intros _. split; [by intros o i j w1 w2 ?%elem_of_nil|done].
  - intros H. inv_bind H. destruct a as [[] used1]; [done|].
    destruct (IH _ H) as [IH1 IH2].
    destruct (conflict_wants_marks _ _ _ _ _ _ Ha) as [_ Hall]. split.
    + intros o i j w1 w2 [->|Ho]%elem_of_cons; [|by apply IH1].
      by eapply conflict_wants_once.
    + assert (Hlater : ∀ o2 k, o2 ∈ os → offer_matches o' ws k →
                offer_matches o2 ws k → False).
      { intros o2 k Ho2 Hk1 Hk2.
        eapply (conflict_offers_fresh g os ws _ _ o2 k H); [done..|].
        by apply Hall. }
      intros [|i] [|j] o1 o2 k Hij Hi Hj Hk1 Hk2; simpl in Hi, Hj.
      * done.
      * injection Hi as ->.
        eapply Hlater; [|exact Hk1|exact Hk2]. by eapply list_elem_of_lookup_2.
      * injection Hj as ->.
        eapply Hlater; [|exact Hk2|exact Hk1]. by eapply list_elem_of_lookup_2.
      * eapply (IH2 i j); eauto.
Qed.

Lemma consecutive_inv g r rest u v :
  consecutive (g :: r :: rest) u v →
  (u = g ∧ v = r) ∨ consecutive (r :: rest) u v.
Proof.
  intros ([|i] & Hi & HSi); simpl in *; [left; by simplify_eq|right].
  by exists i.
Qed.

Lemma violates_offer_conflict_fresh cycle request_map used used' p :
  violates_offer_conflict cycle request_map used = Ok (false, used') →
  step_offer request_map cycle p → p ∉ used.
Proof.
  revert used. induction cycle as [|g rest IH]; intros used.
  - intros _ (r & ? & ? & ? & (i & Hi & _) & _). done.
  - destruct rest as [|r rest'].
    { intros _ (r & ? & ? & ? & (i & _ & Hi) & _). done. }
    cbn [violates_offer_conflict]. intros H Hp.
    inv_bind H. rename a into giver, Ha into Hgiver.
    inv_bind H. rename a into receiver, Ha into Hreceiver.
    inv_bind H. destruct a as [[] used1]; [done|].
    apply get_request_Ok in Hgiver, Hreceiver.
    destruct p as [pg pk].
    destruct Hp as (r' & gv & rc & o & Hc & Hgv & Hrc & Ho & Hm). simpl in *.
    apply consecutive_inv in Hc as [[-> ->]|Hc].
    + simplify_eq. by eapply conflict_offers_fresh.
    + destruct (conflict_offers_marks _ _ _ _ _ _ Ha) as [[Hsub _] _].
      intros Hin. eapply (IH _ H); [|by apply Hsub].
      by exists r', gv, rc, o.
Qed.

Lemma violates_offer_conflict_cons g r rest request_map used :
  violates_offer_conflict (g :: r :: rest) request_map used
  = giver ← get_request request_map g;
    receiver ← get_request request_map r;
    '(ret, used') ← conflict_offers g (offers giver) (wants receiver) used;
    if ret : bool then Ok (true, used')
    else violates_offer_conflict (r :: rest) request_map used'.
Proof. reflexivity. Qed.

(** Whether the check raises does not depend on the tracker. *)
Lemma conflict_wants_returns g o ws used1 used1' used2 :
  conflict_wants g o ws used1 = Ok (false, used1') →
  ∃ res, conflict_wants g o ws used2 = Ok res.
Proof.
  revert used1 used2. induction ws as [|w ws IH]; intros used1 used2; simpl; [eauto|].
  intros H. inv_bind H. rewrite Ha. simpl. destruct a; [|by eapply IH].
  inv_bind H. rewrite Ha0. simpl.
  case_bool_decide; [done|]. case_bool_decide; [eauto|]. by eapply IH.
Qed.

Lemma conflict_offers_returns g os ws used1 used1' used2 :
  conflict_offers g os ws used1 = Ok (false, used1') →
  ∃ res, conflict_offers g os ws used2 = Ok res.
Proof.
  revert used1 used2. induction os as [|o os IH]; intros used1 used2; simpl; [eauto|].
  intros H. inv_bind H. destruct a as [[] u1]; [done|].
  destruct (conflict_wants_returns _ _ _ _ _ used2 Ha) as [[ret u2] ->]. simpl.
  destruct ret; [eauto|]. by eapply IH.
Qed.

Lemma violates_offer_conflict_returns cycle request_map used1 used1' used2 :
  violates_offer_conflict cycle request_map used1 = Ok (false, used1') →
  ∃ res, violates_offer_conflict cycle request_map used2 = Ok res.
Proof.
  revert used1 used2. induction cycle as [|g rest IH]; intros used1 used2; [simpl; eauto|].
  destruct rest as [|r rest']; [simpl; eauto|].
  rewrite !violates_offer_conflict_cons. intros H.
  inv_bind H. rewrite Ha, bind_Ok_l. inv_bind H. rewrite Ha0, bind_Ok_l.
  inv_bind H. destruct a1 as [ret1 u1].
  destruct ret1; [done|].
  destruct (conflict_offers_returns _ _ _ _ _ used2 Ha1) as [[ret u2] ->].
  rewrite bind_Ok_l. destruct ret; [eauto|]. by apply (IH u1 u2).
Qed.

(** On keyed rows and known participants the check raises nothing. *)
Lemma conflict_wants_keyed g o ws used :
  keyed o → Forall keyed ws → ∃ res, conflict_wants g o ws used = Ok res.
Proof.
  intros Ho Hws. revert used.
  induction Hws as [|w ws Hw _ IH]; intros used; simpl; [eauto|].
  destruct (names_match_keyed o w Ho Hw) as [b ->]. simpl.
  destruct b; [|apply IH]. destruct Ho as [k Hk].
  unfold get_full_name. rewrite Hk. simpl. case_bool_decide; [eauto|apply IH].
Qed.

Lemma conflict_offers_keyed g os ws used :
  Forall keyed os → Forall keyed ws → ∃ res, conflict_offers g os ws used = Ok res.
Proof.
  intros Hos Hws. revert used.
  induction Hos as [|o os Ho _ IH]; intros used; simpl; [eauto|].
  destruct (conflict_wants_keyed g o ws used Ho Hws) as [[ret u] ->]. simpl.
  destruct ret; [eauto|apply IH].
Qed.

Lemma violates_offer_conflict_keyed cycle request_map used :
  map_keyed request_map →
  (∀ n, n ∈ cycle → is_Some (request_map !! n)) →
  ∃ res, violates_offer_conflict cycle request_map used = Ok res.
Proof.
  intros Hkeyed. revert used.
  induction cycle as [|g rest IH]; intros used Hin; [simpl; eauto|].
  destruct rest as [|r rest']; [simpl; eauto|].
  rewrite violates_offer_conflict_cons.
  destruct (Hin g) as [giver Hg]; [left|].
  destruct (Hin r) as [receiver Hr]; [right; left|].
  unfold get_request. rewrite Hg, Hr, !bind_Ok_l.
  destruct (Hkeyed _ _ Hg) as [Hos _]. destruct (Hkeyed _ _ Hr) as [_ Hws].
  destruct (conflict_offers_keyed g _ _ used Hos Hws) as [[ret u] ->].
  rewrite bind_Ok_l. destruct ret; [eauto|]. apply IH. intros n Hn. apply Hin. by right.
Qed.

End conflict_more.

(** ** The search loops, for any invariant *)

Lemma accept_cycle_cases cycle request_map st st' :
  accept_cycle cycle request_map st = Ok st' →
  all_cycles st' = all_cycles st
  ∨ (all_cycles st' = all_cycles st ++ [cycle]
     ∧ (∀ n, n ∈ cycle → n ∉ used_nodes st)
     ∧ ∃ used', violates_offer_conflict cycle request_map (used_offers st)
                = Ok (false, used')).
Proof.
  unfold accept_cycle. destruct (existsb _ cycle) eqn:Hfree.
  - intros [= <-]. by left.
  - intros H. inv_bind H. destruct a as [[] used']; injection H as <-; simpl.
    + by left.
    + right. split; [done|]. split; [by apply existsb_used_false|]. by exists used'.
Qed.

Section search_generic.

Variable request_map : gmap ident request.
Variable max_len : Z.
Variable I : run_state → Prop.
Variable Bad : Prop.
Variable Cand : list ident → Prop.
Variable F : ident → frame → Prop.
Variable good : ident → ident → Prop.

Hypothesis accept_ok : ∀ cycle st,
  Cand cycle → I st → outcome_ok I Bad (accept_cycle cycle request_map st).
Hypothesis push_ok : ∀ start node path nb,
  F start (node, path) → good node nb → nb ∉ path →
  (Z.of_nat (length path) < max_len)%Z → F start (nb, path ++ [nb]).
Hypothesis close_ok : ∀ start node path,
  F start (node, path) → good node start → 3 ≤ length path →
  Cand (path ++ [start]).

Lemma scan_successors_generic start node path neighbors stack st :
  (∀ v, v ∈ neighbors → good node v) →
  F start (node, path) → Forall (F start) stack → I st →
  match scan_successors start path max_len neighbors request_map stack st with
  | Ok (stack', st') => Forall (F start) stack' ∧ I st'
  | Raise _ => Bad
  end.
Proof.
  intros Hgood Hfr. revert stack.
  induction neighbors as [|nb nbs IH]; intros stack Hstack Hst;
    cbn [scan_successors]; [done|].
  assert (Hnb : good node nb) by (apply Hgood; left).
  assert (Hnbs : ∀ v, v ∈ nbs → good node v) by (intros v ?; apply Hgood; by right).
  destruct (bool_decide (nb = start) && (3 <=? length path)) eqn:Hclose.
  - apply andb_prop in Hclose as [->%bool_decide_eq_true Hlen%Nat.leb_le].
    pose proof (accept_ok _ st (close_ok _ _ _ Hfr Hnb Hlen) Hst) as Hacc.
    destruct (accept_cycle _ _ _); simpl in *; done.
  - destruct (bool_decide (nb ∉ path) && _) eqn:Hpush; [|by apply IH].
    apply andb_prop in Hpush as [Hfresh%bool_decide_eq_true Hlt%Z.ltb_lt].
    apply IH; [done| |done]. constructor; [|done]. by eapply push_ok.
Qed.

Lemma search_while_generic fuel sg start stack st r :
  (∀ u v, v ∈ successors sg u → good u v) →
  Forall (F start) stack → I st →
  search_while fuel sg start max_len request_map stack st = Some r →
  outcome_ok I Bad r.
Proof.
  intros Hsg. revert stack st.
  induction fuel as [|fuel IH]; intros [|[node path] stack] st Hstack Hst; simpl;
    try done; try by intros [= <-].
  apply Forall_cons in Hstack as [Hfr Hstack].
  pose proof (scan_successors_generic start node path (successors sg node) stack st
                (λ v, Hsg node v) Hfr Hstack Hst) as Hscan.
  destruct (scan_successors _ _ _ _ _ _ _) as [[stack'' st'']|e].
  - destruct Hscan. by apply IH.
  - by intros [= <-].
Qed.

Lemma search_starts_generic fuel sg starts st r :
  (∀ u v, v ∈ successors sg u → good u v) →
  (∀ start, start ∈ starts → F start (start, [start])) → I st →
  search_starts fuel sg starts max_len request_map st = Some r →
  outcome_ok I Bad r.
Proof.
  intros Hsg. revert st.
  induction starts as [|start starts IH]; intros st Hstarts Hst; simpl.
  - by intros [= <-].
  - destruct (search_while _ _ _ _ _ _ _) as [r1|] eqn:Hwhile; [|done].
    eapply search_while_generic in Hwhile; [|done| |done].
    + destruct r1 as [st1|e]; [|by intros [= <-]].
      apply IH; [|done]. intros s ?. apply Hstarts. by right.
    + constructor; [|constructor]. apply Hstarts. left.
Qed.

Lemma search_components_generic fuel G components st r :
  (∀ comp u v, comp ∈ components →
     v ∈ successors (subgraph G comp) u → good u v) →
  (∀ comp start, comp ∈ components → start ∈ comp → F start (start, [start])) →
  I st →
  search_components fuel G components max_len request_map st = Some r →
  outcome_ok I Bad r.
Proof.
  revert st. induction components as [|comp comps IH]; intros st Hgood Hstarts Hst; simpl.
  - by intros [= <-].
  - destruct (search_starts _ _ _ _ _ _) as [r1|] eqn:Hs; [|done].
    eapply search_starts_generic in Hs; [| | |done].
    + destruct r1 as [st1|e]; [|by intros [= <-]].
      apply IH; [| |done].
      * intros c u v ?. apply Hgood. by right.
      * intros c s ?. apply Hstarts. by right.
    + intros u v. apply Hgood. left.
    + intros s. apply Hstarts. left.
Qed.

Lemma greedy_scan_generic cycles st :
  (∀ c, c ∈ cycles → Cand c) → I st →
  outcome_ok I Bad (greedy_scan cycles request_map st).
Proof.
  revert st. induction cycles as [|c cycles IH]; intros st Hc Hst; simpl; [done|].
  pose proof (accept_ok c st (Hc c ltac:(left)) Hst) as Hacc.
  destruct (accept_cycle c request_map st) as [st1|e]; simpl in *; [|done].
  apply IH; [|done]. intros c' ?. apply Hc. by right.
Qed.

Lemma greedy_components_generic simple_cycles G components st :
  (∀ comp c, c ∈ simple_cycles (subgraph G comp) →
     3 ≤ length c → first_is_last c = true → Cand c) →
  I st →
  outcome_ok I Bad (greedy_components simple_cycles G components request_map st).
Proof.
  intros Hc. revert st. induction components as [|comp comps IH]; intros st Hst; simpl;
    [done|].
  unfold greedy_component.
  pose proof (greedy_scan_generic
                (sort_by_len_desc
                   (filter (λ c, 3 ≤ length c ∧ first_is_last c = true)
                      (simple_cycles (subgraph G comp)))) st) as Hscan.
  destruct (greedy_scan _ _ _) as [st1|e]; simpl in *.
  - apply IH, Hscan; [|done].
    intros c [[? ?] ?]%sort_by_len_desc_elem%list_elem_of_filter. eauto.
  - apply Hscan; [|done].
    intros c [[? ?] ?]%sort_by_len_desc_elem%list_elem_of_filter. eauto.
Qed.

End search_generic.

(** ** The depth bound of the exhaustive search *)

Lemma is_cycle_length edge c : is_cycle edge c → 4 ≤ length c.
Proof.
  intros (p0 & ps & -> & _ & Hlen & _). rewrite length_app. simpl in *. lia.
Qed.

Lemma search_components_depth fuel G components max_len request_map r :
  search_components fuel G components max_len request_map initial_state = Some r →
  outcome_ok (λ st, ∀ c, c ∈ all_cycles st → (Z.of_nat (length c) ≤ max_len + 1)%Z)
    True r.
Proof.
  apply (search_components_generic request_map max_len _ True
           (λ c, (Z.of_nat (length c) ≤ max_len + 1)%Z)
           (λ _ fr, length fr.2 = 1 ∨ (Z.of_nat (length fr.2) ≤ max_len)%Z)
           (λ _ _, True)).
  - intros cycle st Hc Hst.
    destruct (accept_cycle cycle request_map st) as [st'|e] eqn:Hacc; [|done].
    simpl. intros c Hin.
    apply accept_cycle_cases in Hacc as [Heq|(Heq & _)]; rewrite Heq in Hin; [auto|].
    apply elem_of_app in Hin as [?| ->%list_elem_of_singleton]; auto.
  - intros start node path nb _ _ _ Hlt. right. simpl. rewrite length_app. simpl. lia.
  - intros start node path [Hone|Hle] _ Hlen; simpl in *; rewrite length_app; simpl; lia.
  - done.
  - intros comp start _ _. by left.
  - by intros c ?%elem_of_nil.
Qed.

(** ** Accepted cycles passed the conflict check *)

Lemma accept_cycle_passes request_map cycle st :
  (∀ c, c ∈ all_cycles st → passes_check request_map c) →
  outcome_ok (λ st, ∀ c, c ∈ all_cycles st → passes_check request_map c) True
    (accept_cycle cycle request_map st).
Proof.
  intros Hst.
  destruct (accept_cycle cycle request_map st) as [st'|e] eqn:Hacc; [|done].
  simpl. intros c Hin.
  apply accept_cycle_cases in Hacc as [Heq|(Heq & _ & used' & Hv)];
    rewrite Heq in Hin; [auto|].
  apply elem_of_app in Hin as [?| ->%list_elem_of_singleton]; [auto|].
  by exists (used_offers st), used'.
Qed.

Lemma search_components_passes fuel G components max_len request_map r :
  search_components fuel G components max_len request_map initial_state = Some r →
  outcome_ok (λ st, ∀ c, c ∈ all_cycles st → passes_check request_map c) True r.
Proof.
  apply (search_components_generic request_map max_len _ True
           (λ _, True) (λ _ _, True) (λ _ _, True)); try done.
  - intros cycle st _. apply accept_cycle_passes.
  - by intros c ?%elem_of_nil.
Qed.

Lemma exhaustive_returns_passes cc G request_map max_len cycles c :
  exhaustive_returns cc G request_map max_len cycles →
  c ∈ cycles → passes_check request_map c.
Proof.
  intros [fuel H] Hc. unfold sample_cycles_exhaustive in H.
  destruct (search_components _ _ _ _ _ _) as [[st|e]|] eqn:Hs; try done.
  injection H as <-. apply search_components_passes in Hs. by apply Hs.
Qed.

(** ** Runs that raise nothing *)

Lemma accept_cycle_keyed cycle request_map st :
  map_keyed request_map → (∀ n, n ∈ cycle → known request_map n) →
  ∃ st', accept_cycle cycle request_map st = Ok st'.
Proof.
  intros Hkeyed Hknown. unfold accept_cycle.
  destruct (existsb _ cycle); [eauto|].
  destruct (violates_offer_conflict_keyed cycle request_map (used_offers st)
              Hkeyed Hknown) as [[ret u] ->].
  rewrite bind_Ok_l. destruct ret; eauto.
Qed.

Lemma search_components_no_raise fuel G components max_len request_map e :
  map_keyed request_map →
  (∀ comp n, comp ∈ components → n ∈ comp → known request_map n) →
  (∀ u v, v ∈ successors G u → known request_map v) →
  search_components fuel G components max_len request_map initial_state
    ≠ Some (Raise e).
Proof.
  intros Hkeyed Hcomp Hedges Hs.
  apply (search_components_generic request_map max_len (λ _, True) False
           (λ c, ∀ n, n ∈ c → known request_map n)
           (λ start fr, known request_map start
                        ∧ ∀ n, n ∈ fr.2 → known request_map n)
           (λ _ v, known request_map v)) in Hs; try done.
  - intros cycle st Hc _.
    by destruct (accept_cycle_keyed cycle request_map st Hkeyed Hc) as [st' ->].
  - intros start node path nb [Hstart Hpath] Hnb _ _. split; [done|]. simpl.
    intros n [?| ->%list_elem_of_singleton]%elem_of_app; auto.
  - intros start node path [Hstart Hpath] _ _ n
      [?| ->%list_elem_of_singleton]%elem_of_app; auto.
  - intros comp u v _ Huv%successors_subgraph. by eapply Hedges.
  - intros comp start Hc Hs'. split; [by eapply Hcomp|]. simpl.
    intros n ->%list_elem_of_singleton. by eapply Hcomp.
Qed.

(** ** The describer *)

Lemma first_want_true o ws :
  first_want o ws = Ok true → ∃ w, w ∈ ws ∧ names_match o w = Ok true.
Proof.
  induction ws as [|w ws IH]; simpl; [done|].
  intros H. inv_bind H. destruct a.
  - exists w. split; [left|done].
  - destruct (IH H) as (w' & ? & ?). exists w'. split; [by right|done].
Qed.

Lemma first_want_false o ws w :
  first_want o ws = Ok false → w ∈ ws → names_match o w = Ok false.
Proof.
  induction ws as [|w' ws IH]; simpl; [by intros _ ?%elem_of_nil|].
  intros H Hw. inv_bind H. destruct a; [done|].
  apply elem_of_cons in Hw as [->|Hw]; auto.
Qed.

Lemma matching_offer_Some os ws o :
  matching_offer os ws = Ok (Some o) →
  o ∈ os ∧ ∃ k, offer_matches o ws k.
Proof.
  induction os as [|o' os IH]; simpl; [done|].
  intros H. inv_bind H. destruct a.
  - injection H as ->. split; [left|].
    destruct (first_want_true _ _ Ha) as (w & Hw & Hm).
    destruct (names_match_true _ _ Hm) as (ko & _ & Hko & _).
    exists ko. split; [done|]. by exists w.
  - destruct (IH H) as [? ?]. split; [by right|done].
Qed.

Lemma matching_offer_None os ws o w :
  matching_offer os ws = Ok None → o ∈ os → w ∈ ws → names_match o w = Ok false.
Proof.
  induction os as [|o' os IH]; simpl; [by intros _ ?%elem_of_nil|].
  intros H Ho Hw. inv_bind H. destruct a; [done|].
  apply elem_of_cons in Ho as [->|Ho]; [by eapply first_want_false|auto].
Qed.

(** The describer compares a prefix of the pairs the conflict check
    compares, so it raises nothing where the check raised nothing. *)
Lemma conflict_wants_compared g o ws used used' w :
  conflict_wants g o ws used = Ok (false, used') →
  w ∈ ws → ∃ b, names_match o w = Ok b.
Proof.
  revert used. induction ws as [|w' ws IH]; intros used; simpl;
    [by intros _ ?%elem_of_nil|].
  intros H Hw. inv_bind H.
  assert (Hrest : ∃ u, conflict_wants g o ws u = Ok (false, used')).
  { destruct a; [|eauto]. inv_bind H. case_bool_decide; [done|eauto]. }
  destruct Hrest as [u Hu].
  apply elem_of_cons in Hw as [->|Hw]; [eauto|by eapply IH].
Qed.

Lemma first_want_returns o ws :
  (∀ w, w ∈ ws → ∃ b, names_match o w = Ok b) → ∃ b, first_want o ws = Ok b.
Proof.
  induction ws as [|w ws IH]; intros Hall; simpl; [eauto|].
  destruct (Hall w) as [b ->]; [left|]. rewrite bind_Ok_l.
  destruct b; [eauto|]. apply IH. intros w' ?. apply Hall. by right.
Qed.

Lemma conflict_offers_described g os ws used used' :
  conflict_offers g os ws used = Ok (false, used') →
  ∃ mo, matching_offer os ws = Ok mo.
Proof.
  revert used. induction os as [|o os IH]; intros used; simpl; [eauto|].
  intros H. inv_bind H. destruct a as [[] u1]; [done|].
  destruct (first_want_returns o ws) as [b ->].
  { intros w Hw. by eapply conflict_wants_compared. }
  rewrite bind_Ok_l. destruct b; [eauto|]. by eapply IH.
Qed.

Lemma describe_steps_cons g r rest request_map :
  describe_steps (g :: r :: rest) request_map
  = giver ← get_request request_map g;
    receiver ← get_request request_map r;
    mo ← matching_offer (offers giver) (wants receiver);
    line ← match mo with
           | Some o =>
               k ← get_full_name o;
               mret [py_str (name giver) +:+ " offers '" +:+ k +:+ "' → to "
                       +:+ py_str (name receiver)]
           | None => mret []
           end;
    description ← describe_steps (r :: rest) request_map;
    mret (line ++ description).
Proof. reflexivity. Qed.

Lemma describe_steps_passes c request_map :
  passes_check request_map c → ∃ d, describe_steps c request_map = Ok d.
Proof.
  intros (used & used' & H). revert used H.
  induction c as [|g rest IH]; intros used H; [simpl; eauto|].
  destruct rest as [|r rest']; [simpl; eauto|].
  rewrite violates_offer_conflict_cons in H. rewrite describe_steps_cons.
  inv_bind H. rewrite Ha, bind_Ok_l. inv_bind H. rewrite Ha0, bind_Ok_l.
  inv_bind H. destruct a1 as [ret1 u1]. destruct ret1; [done|].
  destruct (conflict_offers_described _ _ _ _ _ Ha1) as [mo Hmo].
  rewrite Hmo, bind_Ok_l.
  destruct (IH u1 H) as [d ->].
  destruct mo as [o|]; [|by eexists].
  apply matching_offer_Some in Hmo as (_ & k & Hk & _).
  unfold get_full_name. rewrite Hk. by eexists.
Qed.

(** One line per step that has a match. *)
Lemma describe_steps_length c request_map d :
  describe_steps c request_map = Ok d → length d ≤ length c - 1.
Proof.
  revert d. induction c as [|g rest IH]; intros d; [by intros [= <-]|].
  destruct rest as [|r rest']; [by intros [= <-]|].
  rewrite describe_steps_cons. intros H.
  inv_bind H. inv_bind H. inv_bind H. inv_bind H. inv_bind H.
  unfold mret, result_ret in H.
  injection H as <-. apply IH in Ha3. rewrite length_app.
  assert (length a2 ≤ 1).
  { unfold mret, result_ret in Ha2. destruct a1.
    - inv_bind Ha2. injection Ha2 as <-. simpl. lia.
    - injection Ha2 as <-. simpl. lia. }
  simpl in *. lia.
Qed.

Lemma describe_steps_full c request_map d :
  (∀ u v, consecutive c u v →
     ∃ giver receiver o w,
       request_map !! u = Some giver ∧ request_map !! v = Some receiver ∧
       o ∈ offers giver ∧ w ∈ wants receiver ∧ names_match o w = Ok true) →
  describe_steps c request_map = Ok d → length d = length c - 1.
Proof.
  revert d. induction c as [|g rest IH]; intros d Hsteps; [by intros [= <-]|].
  destruct rest as [|r rest']; [by intros [= <-]|].
  rewrite describe_steps_cons. intros H.
  inv_bind H. inv_bind H. inv_bind H. inv_bind H. inv_bind H.
  unfold mret, result_ret in H.
  injection H as <-. apply IH in Ha3; [|intros u v ?; by apply Hsteps, consecutive_cons].
  rewrite length_app, Ha3.
  assert (length a2 = 1) as ->; [|simpl; lia].
  apply get_request_Ok in Ha, Ha0.
  destruct (Hsteps g r (consecutive_head _ _ _))
    as (giver & receiver & o & w & Hg & Hr & Ho & Hw & Hm).
  simplify_eq. unfold mret, result_ret in Ha2. destruct a1 as [o'|].
  - inv_bind Ha2. by injection Ha2 as <-.
  - pose proof (matching_offer_None _ _ o w Ha1 Ho Hw). congruence.
Qed.

(** The rows of the first table, in general. *)
Lemma describe_from_rows n cycles request_map all_rows user_rows :
  describe_from n cycles request_map = Ok (all_rows, user_rows) →
  (∀ i j r1 r2, i < j → all_rows !! i = Some r1 → all_rows !! j = Some r2 →
     cycle_id r1 < cycle_id r2)
  ∧ (∀ r, r ∈ all_rows →
       n ≤ cycle_id r ∧
       ∃ c d, cycles !! (cycle_id r - n) = Some c ∧ describable c = true ∧
              describe_steps c request_map = Ok d ∧
              exchange_path r = Str.join Str.newline d)
  ∧ (∀ i c, cycles !! i = Some c → describable c = true →
       ∃ r, r ∈ all_rows ∧ cycle_id r = n + i).
Proof.
  revert n all_rows user_rows.
  induction cycles as [|cycle cycles IH]; intros n all_rows user_rows;
    cbn [describe_from].
  - intros [= <- <-]. split; [done|]. split; [by intros r ?%elem_of_nil|done].
  - assert (Hshift : ∀ r, S n ≤ cycle_id r →
              (cycle :: cycles) !! (cycle_id r - n) = cycles !! (cycle_id r - S n)).
    { intros r Hr. by replace (cycle_id r - n) with (S (cycle_id r - S n)) by lia. }
    unfold describable at 1 2.
    destruct ((length cycle <? 3) || negb (first_is_last cycle)) eqn:Hskip.
    + intros (Hsorted & Hrows & Hall)%IH. split; [done|]. split.
      * intros r Hr. destruct (Hrows r Hr) as (Hge & c & d & Hc & ?).
        split; [lia|]. exists c, d. by rewrite Hshift.
      * intros [|i] c Hc Hd; simpl in Hc.
        -- injection Hc as <-. unfold describable in Hd. by rewrite Hskip in Hd.
        -- destruct (Hall i c Hc Hd) as (r & ? & ?). exists r. split; [done|lia].
    + intros H. inv_bind H. inv_bind H. destruct a0 as [all_rest user_rest].
      injection H as <- <-. apply IH in Ha0 as (Hsorted & Hrows & Hall).
      split; [|split].
      * intros [|i] [|j] r1 r2 Hij Hi Hj; simpl in Hi, Hj; try lia.
        -- injection Hi as <-. simpl.
           destruct (Hrows r2) as [? _]; [by eapply list_elem_of_lookup_2|lia].
        -- eapply (Hsorted i j); [lia|done..].
      * intros r [->|Hr]%elem_of_cons.
        -- simpl. split; [lia|]. exists cycle, a. rewrite Nat.sub_diag.
           unfold describable. by rewrite Hskip.
        -- destruct (Hrows r Hr) as (Hge & c & d & Hc & ?).
           split; [lia|]. exists c, d. by rewrite Hshift.
      * intros [|i] c Hc Hd; simpl in Hc.
        -- eexists. split; [left|]. simpl. lia.
        -- destruct (Hall i c Hc Hd) as (r & ? & ?). exists r.
           split; [by right|lia].
Qed.

(** On cycles that all pass the test of line 145 and passed the conflict
    check, the describer raises nothing and numbers the rows 0, 1, 2, ... *)
Lemma describe_from_total n cycles request_map :
  (∀ c, c ∈ cycles → describable c = true ∧ passes_check request_map c) →
  ∃ all_rows user_rows,
    describe_from n cycles request_map = Ok (all_rows, user_rows)
    ∧ cycle_id <$> all_rows = seq n (length cycles).
Proof.
  revert n. induction cycles as [|cycle cycles IH]; intros n Hall;
    cbn [describe_from].
  - by exists [], [].
  - destruct (Hall cycle) as [Hd Hp]; [left|].
    unfold describable in Hd. apply negb_true_iff in Hd. rewrite Hd.
    destruct (describe_steps_passes _ _ Hp) as [d ->]. rewrite bind_Ok_l.
    destruct (IH (S n)) as (all_rest & user_rest & -> & Hids).
    { intros c ?. apply Hall. by right. }
    rewrite bind_Ok_l. eexists _, _. split; [reflexivity|].
    rewrite fmap_cons. simpl. by rewrite Hids.
Qed.

Lemma is_cycle_describable edge c : is_cycle edge c → describable c = true.
Proof.
  intros (p0 & ps & -> & _ & Hlen & _). unfold describable.
  apply negb_true_iff, orb_false_intro.
  - apply Nat.ltb_ge. rewrite length_app. simpl in *. lia.
  - apply negb_false_iff. unfold first_is_last.
    rewrite last_snoc. simpl. by apply bool_decide_eq_true.
Qed.

(** ** The normaliser, further *)

Module StrMore.
Import Str StrFacts.

Lemma lstrip_empty_blank s : lstrip s = EmptyString ↔ blank s = true.
Proof.
  induction s as [|c s IH]; simpl; [done|].
  destruct (is_space c); simpl; [done|]. split; discriminate.
Qed.

Lemma rstrip_empty_blank s : rstrip s = EmptyString ↔ blank s = true.
Proof.
  split; [|apply rstrip_blank].
  induction s as [|c s IH]; simpl; [done|].
  destruct (rstrip s) as [|c' r]; [|discriminate].
  destruct (is_space c); [|discriminate]. intros _. by apply IH.
Qed.

Lemma lstrip_head s c t : lstrip s = String c t → is_space c = false.
Proof.
  induction s as [|c' s IH]; simpl; [discriminate|].
  destruct (is_space c') eqn:Hc; [done|]. by intros [= <- <-].
Qed.

(** [s.strip()] is empty exactly for the texts made of whitespace only. *)
Lemma strip_empty_blank s : strip s = EmptyString ↔ blank s = true.
Proof.
  unfold strip. rewrite rstrip_empty_blank. split.
  - intros Hb. apply lstrip_empty_blank.
    destruct (lstrip s) as [|c t] eqn:Hl; [done|].
    apply lstrip_head in Hl. simpl in Hb. by rewrite Hl in Hb.
  - intros Hb. apply lstrip_empty_blank in Hb. by rewrite Hb.
Qed.

Lemma lstrip_idemp s : lstrip (lstrip s) = lstrip s.
Proof.
  induction s as [|c s IH]; simpl; [done|].
  destruct (is_space c) eqn:Hc; [done|]. simpl. by rewrite Hc.
Qed.

Lemma rstrip_idemp s : rstrip (rstrip s) = rstrip s.
Proof.
  induction s as [|c s IH]; simpl; [done|].
  destruct (rstrip s) as [|c' r] eqn:Hr.
  - destruct (is_space c) eqn:Hc; simpl; [done|]. by rewrite Hc.
  - change (rstrip (String c (String c' r))) with
      (match rstrip (String c' r) with
       | EmptyString => if is_space c then EmptyString else String c EmptyString
       | r' => String c r'
       end).
    by rewrite IH.
Qed.

Lemma strip_idemp s : strip (strip s) = strip s.
Proof.
  unfold strip. by rewrite (lstrip_rstrip (lstrip s)), lstrip_idemp, rstrip_idemp.
Qed.

Lemma upper_idemp s : upper (upper s) = upper s.
Proof. induction s as [|c s IH]; simpl; [done|]. by rewrite IH, char_upper_idemp. Qed.

Lemma lstrip_upper s : lstrip (upper s) = upper (lstrip s).
Proof.
  induction s as [|c s IH]; simpl; [done|].
  rewrite is_space_char_upper. by destruct (is_space c).
Qed.

Lemma rstrip_upper s : rstrip (upper s) = upper (rstrip s).
Proof.
  induction s as [|c s IH]; simpl; [done|].
  rewrite IH, is_space_char_upper.
  destruct (rstrip s); simpl; [by destruct (is_space c)|done].
Qed.

Lemma strip_upper s : strip (upper s) = upper (strip s).
Proof. unfold strip. by rewrite lstrip_upper, rstrip_upper. Qed.

Lemma upper_app s t : upper (s +:+ t) = upper s +:+ upper t.
Proof. induction s as [|c s IH]; simpl; [done|]. by rewrite IH. Qed.

Lemma char_upper_lower c : char_upper (char_lower c) = char_upper c.
Proof. ascii_cases c; reflexivity. Qed.

Lemma upper_lower s : upper (lower s) = upper s.
Proof. induction s as [|c s IH]; simpl; [done|]. by rewrite IH, char_upper_lower. Qed.

(** On texts in upper case the comparison of line 81 is equality. *)
Lemma lower_inj_upper s t :
  upper s = s → upper t = t → lower s = lower t → s = t.
Proof.
  intros Hs Ht Hl. rewrite <- Hs, <- Ht, <- (upper_lower s), <- (upper_lower t).
  by rewrite Hl.
Qed.

End StrMore.

(** ** The store: saving and loading *)

Lemma load_cons doc coll :
  load_all_requests_from_mongo (doc :: coll)
  = (request_of_upload doc <$> uploads doc) ++ load_all_requests_from_mongo coll.
Proof. unfold load_all_requests_from_mongo. by rewrite bind_cons. Qed.

Lemma load_app coll1 coll2 :
  load_all_requests_from_mongo (coll1 ++ coll2)
  = load_all_requests_from_mongo coll1 ++ load_all_requests_from_mongo coll2.
Proof. unfold load_all_requests_from_mongo. by rewrite bind_app. Qed.

Lemma load_ids coll r :
  r ∈ load_all_requests_from_mongo coll → id r ∈ agency_id <$> coll.
Proof.
  induction coll as [|doc coll IH]; [by intros ?%elem_of_nil|].
  rewrite load_cons, fmap_cons.
  intros [(up & -> & _)%list_elem_of_fmap|Hr]%elem_of_app; [left|right; auto].
Qed.

(** What the update half of the upsert does to the loaded requests. *)
Lemma push_upload_load agency up coll :
  match push_upload agency up coll with
  | Some coll' =>
      ∃ l1 l2 doc,
        head (filter (λ doc, agency_id doc = agency) coll) = Some doc
        ∧ load_all_requests_from_mongo coll = l1 ++ l2
        ∧ load_all_requests_from_mongo coll' = l1 ++ request_of_upload doc up :: l2
        ∧ (NoDup (agency_id <$> coll) → ∀ r, r ∈ l2 → id r ≠ agency)
        ∧ agency_id <$> coll' = agency_id <$> coll
  | None => agency ∉ agency_id <$> coll
  end.
Proof.
  induction coll as [|doc coll IH]; cbn [push_upload].
  { rewrite fmap_nil. by intros ?%elem_of_nil. }
  rewrite !fmap_cons. case_bool_decide as Hdoc.
  - exists (request_of_upload doc <$> uploads doc),
      (load_all_requests_from_mongo coll), doc.
    rewrite filter_cons_True by done. split; [done|].
    rewrite !load_cons. split; [done|]. split.
    { cbn [uploads]. rewrite fmap_app, <- app_assoc. done. }
    split; [|done].
    intros [Hnotin _]%NoDup_cons r Hr%load_ids Heq.
    apply Hnotin. by rewrite Hdoc, <- Heq.
  - destruct (push_upload agency up coll) as [coll'|]; cbn [fmap option_fmap option_map].
    + destruct IH as (l1 & l2 & doc' & Hhead & Hload & Hload' & Hl2 & Hids).
      exists ((request_of_upload doc <$> uploads doc) ++ l1), l2, doc'.
      rewrite filter_cons_False by done. split; [done|].
      rewrite !load_cons, Hload, Hload', <- !app_assoc. split; [done|].
      split; [done|]. split; [|by rewrite fmap_cons, Hids].
      intros [_ Hnd]%NoDup_cons. auto.
    + intros [?|?]%elem_of_cons; [congruence|done].
Qed.

Lemma filter_agency_empty agency coll :
  agency ∉ agency_id <$> coll → filter (λ doc, agency_id doc = agency) coll = [].
Proof.
  induction coll as [|doc coll IH]; [done|]. rewrite fmap_cons.
  intros Hn. rewrite filter_cons_False.
  - apply IH. intros ?. apply Hn. by right.
  - intros <-. apply Hn. left.
Qed.

(** A save puts exactly one request into what the loader returns, the
    request of the new upload, and moves no other request. *)
Lemma save_load offers wants name agency coll :
  ∃ l1 l2,
    load_all_requests_from_mongo coll = l1 ++ l2
    ∧ load_all_requests_from_mongo
        (save_user_data_to_mongo offers wants name agency coll)
      = l1 ++ saved_request offers wants name agency coll :: l2
    ∧ (NoDup (agency_id <$> coll) → ∀ r, r ∈ l2 → id r ≠ agency).
Proof.
  unfold save_user_data_to_mongo, saved_request, name_after_save.
  pose proof (push_upload_load agency
                {| up_offers := offers; up_wants := wants |} coll) as Hpush.
  destruct (push_upload _ _ coll) as [coll'|].
  - destruct Hpush as (l1 & l2 & doc & Hhead & Hload & Hload' & Hl2 & _).
    exists l1, l2. rewrite Hhead. split; [done|]. split; [|done].
    rewrite Hload'. do 2 f_equal. unfold request_of_upload. simpl. f_equal.
    apply head_Some_elem_of, list_elem_of_filter in Hhead as [-> _]. done.
  - exists (load_all_requests_from_mongo coll), [].
    rewrite app_nil_r, (filter_agency_empty _ _ Hpush), load_app.
    split; [done|]. split; [|by intros _ r ?%elem_of_nil].
    f_equal.
Qed.

Lemma save_agency_ids offers wants name agency coll :
  agency_id <$> save_user_data_to_mongo offers wants name agency coll
  = if bool_decide (agency ∈ agency_id <$> coll) then agency_id <$> coll
    else (agency_id <$> coll) ++ [agency].
Proof.
  unfold save_user_data_to_mongo.
  pose proof (push_upload_load agency
                {| up_offers := offers; up_wants := wants |} coll) as Hpush.
  destruct (push_upload _ _ coll) as [coll'|].
  - destruct Hpush as (_ & _ & doc & Hhead & _ & _ & _ & Hids).
    rewrite Hids, bool_decide_eq_true_2; [done|].
    apply head_Some_elem_of, list_elem_of_filter in Hhead as [<- Hdoc].
    apply list_elem_of_fmap. by exists doc.
  - rewrite bool_decide_eq_false_2 by done. by rewrite fmap_app.
Qed.

(** ** The upload button *)

Lemma eqb_empty s : String.eqb s "" = true ↔ s = "".
Proof. apply String.eqb_eq. Qed.

(** ** The matching run *)

Lemma load_keyed coll :
  complete_store coll → all_keyed (load_all_requests_from_mongo coll).
Proof.
  intros Hcoll. apply Forall_forall. intros r Hr.
  unfold load_all_requests_from_mongo in Hr.
  apply list_elem_of_bind in Hr as (doc & Hr & Hdoc).
  apply list_elem_of_fmap in Hr as (up & -> & Hup).
  destruct (Hcoll doc up Hdoc Hup) as [Hos Hws]. simpl.
  split; apply Forall_fmap; (eapply Forall_impl; [eassumption|]);
    intros a Ha; by apply add_full_name_keyed.
Qed.

Section run_facts_more.

Variable connected_components : DiGraph → list (list ident).
Variable simple_cycles : DiGraph → list (list ident).

Lemma greedy_returns_passes G request_map max_len cycles c :
  greedy_returns connected_components simple_cycles G request_map max_len cycles →
  c ∈ cycles → passes_check request_map c ∧ describable c = true.
Proof.
  intros H Hc. unfold greedy_returns, sample_cycles_greedy in H.
  inv_bind H. injection H as <-. split.
  - pose proof (greedy_components_generic request_map
                  (λ st, ∀ c, c ∈ all_cycles st → passes_check request_map c)
                  True (λ _, True)
                  (λ cycle st _, accept_cycle_passes request_map cycle st)
                  simple_cycles G (connected_components G) initial_state) as Hgen.
    rewrite Ha in Hgen. apply Hgen; [done| |done]. by intros ? ?%elem_of_nil.
  - assert (Hok : state_ok (λ c, describable c = true) a).
    { eapply greedy_components_ok; [|apply initial_state_ok|exact Ha].
      intros comp c' _ Hlen Hfl. unfold describable.
      apply negb_true_iff, orb_false_intro; [by apply Nat.ltb_ge|].
      by rewrite Hfl. }
    by apply Hok.
Qed.

(** Whatever either strategy returns, the describer takes without
    raising and numbers from 0. *)
Lemma describe_returned G request_map max_len cycles :
  greedy_returns connected_components simple_cycles G request_map max_len cycles
  ∨ exhaustive_returns connected_components G request_map max_len cycles →
  ∃ all_rows user_rows,
    describe_cycles cycles request_map = Ok (all_rows, user_rows)
    ∧ cycle_id <$> all_rows = seq 0 (length cycles).
Proof.
  intros Hrun. apply describe_from_total. intros c Hc.
  destruct Hrun as [Hgreedy|Hex].
  - destruct (greedy_returns_passes _ _ _ _ _ Hgreedy Hc). done.
  - split; [|by eapply exhaustive_returns_passes].
    apply exhaustive_returns_ok in Hex as [_ Hcyc].
    eapply is_cycle_describable. by apply Hcyc.
Qed.

(** On a graph without edges the search accepts nothing. *)
Lemma search_starts_edgeless fuel sg starts max_len request_map st :
  (∀ n, successors sg n = []) →
  search_starts (S fuel) sg starts max_len request_map st = Some (Ok st).
Proof.
  intros Hsg. induction starts as [|start starts IH]; [done|].
  cbn [search_starts search_while]. rewrite Hsg. cbn [scan_successors].
  destruct fuel; exact IH.
Qed.

Lemma search_components_edgeless fuel G components max_len request_map st :
  (∀ n, successors G n = []) →
  search_components (S fuel) G components max_len request_map st = Some (Ok st).
Proof.
  intros HG. induction components as [|comp comps IH]; [done|].
  cbn [search_components]. rewrite search_starts_edgeless; [exact IH|].
  intros n. destruct (successors (subgraph G comp) n) as [|v vs] eqn:Hs; [done|].
  assert (Hv : v ∈ successors (subgraph G comp) n) by (rewrite Hs; left).
  apply successors_subgraph in Hv. rewrite HG in Hv. by apply elem_of_nil in Hv.
Qed.

End run_facts_more.

(** ** Further helpers *)

Lemma violates_offer_conflict_once cycle request_map used used' g r giver receiver :
  violates_offer_conflict cycle request_map used = Ok (false, used') →
  consecutive cycle g r →
  request_map !! g = Some giver → request_map !! r = Some receiver →
  (∀ o i j w1 w2, o ∈ offers giver → i ≠ j →
     wants receiver !! i = Some w1 → wants receiver !! j = Some w2 →
     names_match o w1 = Ok true → names_match o w2 = Ok true → False)
  ∧ (∀ i j o1 o2 k, i ≠ j →
       offers giver !! i = Some o1 → offers giver !! j = Some o2 →
       offer_matches o1 (wants receiver) k → offer_matches o2 (wants receiver) k →
       False).
Proof.
  revert used. induction cycle as [|g0 rest IH]; intros used.
  - intros _ (i & Hi & _). done.
  - destruct rest as [|r0 rest'].
    { intros _ (i & _ & Hi). done. }
    rewrite violates_offer_conflict_cons. intros H Hc Hg Hr.
    inv_bind H. inv_bind H. inv_bind H. destruct a1 as [ret1 u1].
    destruct ret1; [done|].
    apply get_request_Ok in Ha, Ha0.
    apply consecutive_inv in Hc as [[-> ->]|Hc].
    + simplify_eq. by eapply conflict_offers_once.
    + by eapply (IH u1).
Qed.

Lemma NoDup_fmap_eq {A B} (f : A → B) (l : list A) x y :
  NoDup (f <$> l) → x ∈ l → y ∈ l → f x = f y → x = y.
Proof.
  induction l as [|z l IH]; [by intros _ ?%elem_of_nil|].
  rewrite fmap_cons. intros [Hz Hnd]%NoDup_cons Hx Hy Hf.
  apply elem_of_cons in Hx as [->|Hx]; apply elem_of_cons in Hy as [->|Hy];
    [done| | |by apply IH].
  - destruct Hz. rewrite Hf. by apply list_elem_of_fmap_2.
  - destruct Hz. rewrite <- Hf. by apply list_elem_of_fmap_2.
Qed.

Lemma make_request_map_unique (requests : list request) r :
  NoDup (id <$> requests) → r ∈ requests →
  make_request_map requests !! id r = Some r.
Proof.
  intros Hnd Hr.
  destruct (proj2 (make_request_map_is_Some requests (id r))) as [r' Hr'];
    [by exists r|].
  rewrite Hr'. f_equal.
  apply make_request_map_Some in Hr' as [Hin Hid].
  by eapply (NoDup_fmap_eq id requests).
Qed.

Lemma loader_key_upper m v :
  Str.upper (Str.upper (Str.strip m) +:+ " - " +:+ Str.upper (Str.strip v))
  = Str.upper (Str.strip m) +:+ " - " +:+ Str.upper (Str.strip v).
Proof. by rewrite !StrMore.upper_app, !StrMore.upper_idemp. Qed.

(** * Further properties of the code *)

(** ** The graph builder *)

(** X1. The nodes of the graph of [build_graph] are the ids of the
    requests, each listed once, whether or not the participant has an
    edge. *)
Theorem build_graph_nodes_are_ids (requests : list request) (G : DiGraph) :
  build_graph requests = Ok G →
  NoDup (nodes G) ∧ ∀ n, n ∈ nodes G ↔ ∃ r, r ∈ requests ∧ id r = n.
Proof.
  intros (Hwf & Hnodes & _)%build_graph_inv. split; [apply Hwf|done].
Qed.

Lemma build_graph_nodes_are_ids_witness :
  NoDup (nodes Example.six_graph)
  ∧ ∀ n, n ∈ nodes Example.six_graph ↔ ∃ r, r ∈ Example.six_parties ∧ id r = n.
Proof.
  apply (build_graph_nodes_are_ids Example.six_parties Example.six_graph).
  vm_compute. reflexivity.
Defined.

(** X2. The graph of [build_graph] has an edge from [u] to [v] exactly
    when [u] and [v] are different ids and some request of [u] offers an
    asset whose key equals, ignoring case, the key of an asset that some
    request of [v] wants. *)
Theorem build_graph_edge_iff_demand (requests : list request) (G : DiGraph)
    (u v : ident) :
  build_graph requests = Ok G →
  v ∈ successors G u ↔ demand requests u v.
Proof. intros (_ & _ & Hedges)%build_graph_inv. apply Hedges. Qed.

Lemma build_graph_edge_iff_demand_witness :
  Example.C ∈ successors Example.three_graph Example.A
  ↔ demand Example.three_parties Example.A Example.C.
Proof.
  apply (build_graph_edge_iff_demand Example.three_parties Example.three_graph).
  vm_compute. reflexivity.
Defined.

(** X3. The graph of [build_graph] is a simple graph on its nodes: no
    node is its own successor, no successor is listed twice, and both
    ends of every edge are nodes. *)
Theorem build_graph_is_simple (requests : list request) (G : DiGraph)
    (u v : ident) :
  build_graph requests = Ok G →
  NoDup (successors G u)
  ∧ (v ∈ successors G u → u ≠ v ∧ u ∈ nodes G ∧ v ∈ nodes G).
Proof.
  intros (Hwf & _ & Hedges)%build_graph_inv. split; [apply Hwf|].
  intros Huv. split; [by apply Hedges in Huv as [? _]|by apply Hwf].
Qed.

Lemma build_graph_is_simple_witness :
  NoDup (successors Example.three_graph Example.A)
  ∧ (Example.C ∈ successors Example.three_graph Example.A →
     Example.A ≠ Example.C ∧ Example.A ∈ nodes Example.three_graph
     ∧ Example.C ∈ nodes Example.three_graph).
Proof.
  apply (build_graph_is_simple Example.three_parties Example.three_graph).
  vm_compute. reflexivity.
Defined.

(** X4. In a store whose cells hold text: when every stored row has an
    identity key or both a model and a version, the loader gives every
    row a key and [build_graph] returns a graph on what the loader
    returns. *)
Theorem complete_store_builds (coll : list user_doc) :
  complete_store coll →
  all_keyed (load_all_requests_from_mongo coll)
  ∧ ∃ G, build_graph (load_all_requests_from_mongo coll) = Ok G.
Proof.
  intros Hkeyed%load_keyed. split; [done|]. by apply build_graph_keyed.
Qed.

Lemma civic_docs_complete : complete_store Example.civic_docs.
Proof.
  intros doc up Hdoc Hup.
  repeat (apply elem_of_cons in Hdoc as [->|Hdoc]);
    [..|by apply elem_of_nil in Hdoc].
  all: apply list_elem_of_singleton in Hup as ->.
  all: split; (apply Forall_cons; split; [|constructor]).
  all: right; split; by eexists.
Qed.

Lemma complete_store_builds_witness :
  all_keyed (load_all_requests_from_mongo Example.civic_docs)
  ∧ ∃ G, build_graph (load_all_requests_from_mongo Example.civic_docs) = Ok G.
Proof.
  exact (complete_store_builds Example.civic_docs civic_docs_complete).
Defined.

(** ** The request map *)

(** X5. The map of line 201 holds, for an id, the last request of the
    list with that id: a later upload of a participant replaces the
    earlier ones, and an id without a request is absent. *)
Theorem request_map_latest_wins (requests : list request) (i : ident) :
  make_request_map requests !! i = last (filter (λ r, id r = i) requests).
Proof. apply make_request_map_last. Qed.

(** X6. Every node of the graph of [build_graph] has an entry in the map
    of line 201 built from the same requests, and the entry is a request
    of that id. *)
Theorem graph_nodes_have_requests (requests : list request) (G : DiGraph)
    (n : ident) :
  build_graph requests = Ok G → n ∈ nodes G →
  ∃ r, make_request_map requests !! n = Some r ∧ r ∈ requests ∧ id r = n.
Proof.
  intros (_ & Hnodes & _)%build_graph_inv Hn%Hnodes.
  destruct (proj2 (make_request_map_is_Some requests n) Hn) as [r Hr].
  exists r. split; [done|]. by apply make_request_map_Some.
Qed.

Lemma graph_nodes_have_requests_witness :
  ∃ r, make_request_map Example.three_parties !! Example.B = Some r
       ∧ r ∈ Example.three_parties ∧ id r = Example.B.
Proof.
  apply (graph_nodes_have_requests Example.three_parties Example.three_graph).
  - vm_compute. reflexivity.
  - right. left.
Defined.

(** ** The conflict check *)

(** X7. When an offer that matches at some step of the candidate cycle is
    already in the tracker, the conflict check, if it raises nothing,
    returns true. *)
Theorem used_offer_is_conflict (cycle : list ident)
    (request_map : gmap ident request) (used used' : offer_set)
    (ret : bool) (p : ident * string) :
  violates_offer_conflict cycle request_map used = Ok (ret, used') →
  step_offer request_map cycle p → p ∈ used → ret = true.
Proof.
  intros H Hp Hin. destruct ret; [done|].
  by destruct (violates_offer_conflict_fresh _ _ _ _ p H Hp).
Qed.

Lemma used_offer_is_conflict_witness :
  violates_offer_conflict [Example.A; Example.C; Example.B; Example.A]
    Example.three_map {[ (Example.B, "Y") ]}
  = Ok (true, {[ (Example.A, "X"); (Example.C, "Z"); (Example.B, "Y") ]}).
Proof.
  assert (Hrun : ∃ ret used',
            violates_offer_conflict [Example.A; Example.C; Example.B; Example.A]
              Example.three_map {[ (Example.B, "Y") ]} = Ok (ret, used')
            ∧ used' = {[ (Example.A, "X"); (Example.C, "Z"); (Example.B, "Y") ]}).
  { eexists _, _. split; vm_compute; reflexivity. }
  destruct Hrun as (ret & used' & Hrun & ->). rewrite Hrun. do 2 f_equal.
  apply (used_offer_is_conflict
           [Example.A; Example.C; Example.B; Example.A] Example.three_map
           {[ (Example.B, "Y") ]}
           {[ (Example.A, "X"); (Example.C, "Z"); (Example.B, "Y") ]}
           ret (Example.B, "Y") Hrun).
  - exists Example.A, (Example.party Example.B ["Y"] ["Z"]),
      (Example.party Example.A ["X"] ["Y"]), (Example.item "Y").
    split; [by exists 2|]. split; [vm_compute; reflexivity|].
    split; [vm_compute; reflexivity|]. split; [left|].
    split; [reflexivity|]. exists (Example.item "Y"). split; [left|reflexivity].
  - by apply elem_of_singleton.
Defined.

(** X8. A candidate cycle in which one offer of a giver matches two want
    rows of the receiver is rejected whatever the tracker holds: the
    second match finds the key the first match has just marked. *)
Theorem double_want_is_conflict (cycle : list ident)
    (request_map : gmap ident request) (used used' : offer_set) (ret : bool)
    (g r : ident) (giver receiver : request) (o w1 w2 : asset) (i j : nat) :
  violates_offer_conflict cycle request_map used = Ok (ret, used') →
  consecutive cycle g r →
  request_map !! g = Some giver → request_map !! r = Some receiver →
  o ∈ offers giver → i ≠ j →
  wants receiver !! i = Some w1 → wants receiver !! j = Some w2 →
  names_match o w1 = Ok true → names_match o w2 = Ok true →
  ret = true.
Proof.
  intros H Hc Hg Hr Ho Hij Hi Hj Hm1 Hm2. destruct ret; [done|].
  destruct (violates_offer_conflict_once _ _ _ _ _ _ _ _ H Hc Hg Hr) as [Hw _].
  destruct (Hw o i j w1 w2); done.
Qed.

Lemma double_want_is_conflict_witness :
  violates_offer_conflict [Example.A; Example.C; Example.B; Example.A]
    (make_request_map Example.double_want_parties) ∅
  = Ok (true, {[ (Example.A, "X") ]}).
Proof.
  assert (Hrun : ∃ ret used',
            violates_offer_conflict [Example.A; Example.C; Example.B; Example.A]
              (make_request_map Example.double_want_parties) ∅ = Ok (ret, used')
            ∧ used' = {[ (Example.A, "X") ]}).
  { eexists _, _. split; vm_compute; reflexivity. }
  destruct Hrun as (ret & used' & Hrun & ->). rewrite Hrun. do 2 f_equal.
  apply (double_want_is_conflict
           [Example.A; Example.C; Example.B; Example.A]
           (make_request_map Example.double_want_parties) ∅ {[ (Example.A, "X") ]}
           ret Example.A Example.C
           (Example.party Example.A ["X"] ["Y"])
           (Example.party Example.C ["Z"] ["X"; "X"])
           (Example.item "X") (Example.item "X") (Example.item "X") 0 1);
    try done; try (vm_compute; reflexivity).
  - by exists 0.
  - left.
Defined.

(** X9. A candidate cycle in which two offer rows of a giver carry the
    same key and both match wants of the receiver is rejected whatever
    the tracker holds. *)
Theorem double_offer_is_conflict (cycle : list ident)
    (request_map : gmap ident request) (used used' : offer_set) (ret : bool)
    (g r : ident) (giver receiver : request) (o1 o2 : asset) (k : string)
    (i j : nat) :
  violates_offer_conflict cycle request_map used = Ok (ret, used') →
  consecutive cycle g r →
  request_map !! g = Some giver → request_map !! r = Some receiver →
  i ≠ j → offers giver !! i = Some o1 → offers giver !! j = Some o2 →
  offer_matches o1 (wants receiver) k → offer_matches o2 (wants receiver) k →
  ret = true.
Proof.
  intros H Hc Hg Hr Hij Hi Hj Hk1 Hk2. destruct ret; [done|].
  destruct (violates_offer_conflict_once _ _ _ _ _ _ _ _ H Hc Hg Hr) as [_ Ho].
  destruct (Ho i j o1 o2 k); done.
Qed.

Lemma double_offer_is_conflict_witness :
  violates_offer_conflict [Example.A; Example.C; Example.B; Example.A]
    (make_request_map Example.double_offer_parties) ∅
  = Ok (true, {[ (Example.A, "X") ]}).
Proof.
  assert (Hrun : ∃ ret used',
            violates_offer_conflict [Example.A; Example.C; Example.B; Example.A]
              (make_request_map Example.double_offer_parties) ∅ = Ok (ret, used')
            ∧ used' = {[ (Example.A, "X") ]}).
  { eexists _, _. split; vm_compute; reflexivity. }
  destruct Hrun as (ret & used' & Hrun & ->). rewrite Hrun. do 2 f_equal.
  assert (Hm : offer_matches (Example.item "X") (Example.item <$> ["X"]) "X").
  { split; [reflexivity|]. exists (Example.item "X"). split; [left|reflexivity]. }
  apply (double_offer_is_conflict
           [Example.A; Example.C; Example.B; Example.A]
           (make_request_map Example.double_offer_parties) ∅ {[ (Example.A, "X") ]}
           ret Example.A Example.C
           (Example.party Example.A ["X"; "X"] ["Y"])
           (Example.party Example.C ["Z"] ["X"])
           (Example.item "X") (Example.item "X") "X" 0 1);
    try done; try (vm_compute; reflexivity).
  by exists 0.
Defined.

(** X10. The conflict check is not idempotent: after it has accepted a
    cycle with at least one matching offer, a second call on the same
    cycle with the tracker it left returns true. *)
Theorem second_check_is_conflict (cycle : list ident)
    (request_map : gmap ident request) (used used' : offer_set)
    (p : ident * string) :
  violates_offer_conflict cycle request_map used = Ok (false, used') →
  step_offer request_map cycle p →
  ∃ used'', violates_offer_conflict cycle request_map used' = Ok (true, used'').
Proof.
  intros H Hp.
  destruct (violates_offer_conflict_returns _ _ _ _ used' H) as [[ret used''] H2].
  exists used''. rewrite H2. do 2 f_equal. destruct ret; [done|].
  destruct (violates_offer_conflict_fresh _ _ _ _ p H2 Hp).
  apply (violates_offer_conflict_accepts _ _ _ _ p H). by right.
Qed.

Lemma second_check_is_conflict_witness :
  ∃ used'',
    violates_offer_conflict [Example.A; Example.C; Example.B; Example.A]
      Example.three_map {[ (Example.A, "X"); (Example.C, "Z"); (Example.B, "Y") ]}
    = Ok (true, used'').
Proof.
  apply (second_check_is_conflict
           [Example.A; Example.C; Example.B; Example.A] Example.three_map ∅
           {[ (Example.A, "X"); (Example.C, "Z"); (Example.B, "Y") ]}
           (Example.B, "Y")).
  - vm_compute. reflexivity.
  - exists Example.A, (Example.party Example.B ["Y"] ["Z"]),
      (Example.party Example.A ["X"] ["Y"]), (Example.item "Y").
    split; [by exists 2|]. split; [vm_compute; reflexivity|].
    split; [vm_compute; reflexivity|]. split; [left|].
    split; [reflexivity|]. exists (Example.item "Y"). split; [left|reflexivity].
Defined.

(** X11. The conflict check raises nothing when every node of the cycle
    has a request in the map and every row of every request in the map
    carries an identity key that is text. *)
Theorem check_total_on_keyed_rows (cycle : list ident)
    (request_map : gmap ident request) (used : offer_set) :
  map_keyed request_map →
  (∀ n, n ∈ cycle → known request_map n) →
  ∃ ret used', violates_offer_conflict cycle request_map used = Ok (ret, used').
Proof.
  intros Hkeyed Hknown.
  destruct (violates_offer_conflict_keyed cycle request_map used Hkeyed Hknown)
    as [[ret used'] H].
  by exists ret, used'.
Qed.

Lemma three_map_keyed : map_keyed Example.three_map.
Proof.
  apply make_request_map_keyed. repeat constructor; by eexists.
Qed.

Lemma check_total_on_keyed_rows_witness :
  ∃ ret used',
    violates_offer_conflict [Example.A; Example.C; Example.B; Example.A]
      Example.three_map ∅ = Ok (ret, used').
Proof.
  apply (check_total_on_keyed_rows
           [Example.A; Example.C; Example.B; Example.A] Example.three_map ∅
           three_map_keyed).
  intros n Hn. apply make_request_map_is_Some.
  repeat (apply elem_of_cons in Hn as [->|Hn]); [..|by apply elem_of_nil in Hn].
  - exists (Example.party Example.A ["X"] ["Y"]). split; [left|done].
  - exists (Example.party Example.C ["Z"] ["X"]). split; [right; right; left|done].
  - exists (Example.party Example.B ["Y"] ["Z"]). split; [right; left|done].
  - exists (Example.party Example.A ["X"] ["Y"]). split; [left|done].
Defined.

(** ** The strategies *)

(** X12. The greedy strategy accepts nothing: [nx.simple_cycles] reports a
    cycle as the list of its nodes without repeating the first one, so no
    candidate of three or more nodes passes the test [c[0] == c[-1]] of
    line 108, and the strategy returns the empty list on every graph. *)
Theorem greedy_accepts_nothing
    (connected_components simple_cycles : DiGraph → list (list ident))
    (G : DiGraph) (request_map : gmap ident request) (max_len : Z) :
  simple_cycles_spec simple_cycles →
  sample_cycles_greedy connected_components simple_cycles G request_map max_len
  = Ok [].
Proof. apply sample_cycles_greedy_empty. Qed.

Lemma greedy_accepts_nothing_witness :
  sample_cycles_greedy Example.two_components spanning_cycles
    Example.six_graph Example.six_map default_max_len = Ok [].
Proof.
  exact (greedy_accepts_nothing Example.two_components spanning_cycles
           Example.six_graph Example.six_map default_max_len spanning_cycles_spec).
Defined.

(** X13. The exhaustive search terminates on every graph and for every
    depth bound: each [while] loop of a run ends within
    [enough_fuel G max_len] iterations, and more iterations than that
    change nothing. *)
Theorem exhaustive_search_terminates
    (connected_components : DiGraph → list (list ident))
    (G : DiGraph) (request_map : gmap ident request) (max_len : Z) (fuel : nat) :
  enough_fuel G max_len ≤ fuel →
  is_Some (sample_cycles_exhaustive connected_components fuel G request_map max_len)
  ∧ sample_cycles_exhaustive connected_components fuel G request_map max_len
    = sample_cycles_exhaustive connected_components (enough_fuel G max_len)
        G request_map max_len.
Proof.
  intros Hfuel.
  destruct (sample_cycles_exhaustive_terminates connected_components
              (enough_fuel G max_len) G request_map max_len) as [r Hr]; [done|].
  rewrite Hr.
  rewrite (sample_cycles_exhaustive_mono _ _ _ _ _ _ _ Hfuel Hr). by split.
Qed.

Lemma exhaustive_search_terminates_witness :
  is_Some (sample_cycles_exhaustive Example.two_components 100
             Example.six_graph Example.six_map default_max_len)
  ∧ sample_cycles_exhaustive Example.two_components 100
      Example.six_graph Example.six_map default_max_len
    = sample_cycles_exhaustive Example.two_components
        (enough_fuel Example.six_graph default_max_len)
        Example.six_graph Example.six_map default_max_len.
Proof.
  apply (exhaustive_search_terminates Example.two_components
           Example.six_graph Example.six_map default_max_len 100).
  vm_compute. lia.
Defined.

(** X14. Every cycle the exhaustive strategy returns lists at least four
    and at most [max_len + 1] nodes, the closing node included: a path is
    extended only while it is shorter than [max_len]. *)
Theorem exhaustive_respects_depth_bound
    (connected_components : DiGraph → list (list ident))
    (G : DiGraph) (request_map : gmap ident request) (max_len : Z)
    (cycles : list (list ident)) (c : list ident) :
  exhaustive_returns connected_components G request_map max_len cycles →
  c ∈ cycles →
  4 ≤ length c ∧ (Z.of_nat (length c) ≤ max_len + 1)%Z.
Proof.
  intros Hex Hc. split.
  - apply exhaustive_returns_ok in Hex as [_ Hcyc].
    eapply is_cycle_length. by apply Hcyc.
  - destruct Hex as [fuel H]. unfold sample_cycles_exhaustive in H.
    destruct (search_components _ _ _ _ _ _) as [[st|e]|] eqn:Hs; try done.
    injection H as <-. apply search_components_depth in Hs. by apply Hs.
Qed.

Lemma exhaustive_respects_depth_bound_witness :
  4 ≤ length [Example.D; Example.F; Example.E; Example.D]
  ∧ (Z.of_nat (length [Example.D; Example.F; Example.E; Example.D])
     ≤ default_max_len + 1)%Z.
Proof.
  apply (exhaustive_respects_depth_bound Example.two_components
           Example.six_graph Example.six_map default_max_len
           [[Example.A; Example.C; Example.B; Example.A];
            [Example.D; Example.F; Example.E; Example.D]]).
  - exists 100. vm_compute. reflexivity.
  - right. left.
Defined.

(** X15. With a depth bound below 3 the exhaustive strategy returns no
    cycle, whatever the graph. *)
Theorem exhaustive_small_bound_finds_nothing
    (connected_components : DiGraph → list (list ident))
    (G : DiGraph) (request_map : gmap ident request) (max_len : Z)
    (cycles : list (list ident)) :
  (max_len < 3)%Z →
  exhaustive_returns connected_components G request_map max_len cycles →
  cycles = [].
Proof.
  intros Hlt Hex. destruct cycles as [|c cycles]; [done|].
  assert (Hc : c ∈ c :: cycles) by left.
  assert (Hlen : 4 ≤ length c).
  { apply exhaustive_returns_ok in Hex as [_ Hcyc].
    eapply is_cycle_length. by apply Hcyc. }
  destruct Hex as [fuel H]. unfold sample_cycles_exhaustive in H.
  destruct (search_components _ _ _ _ _ _) as [[st|e]|] eqn:Hs; try done.
  injection H as Heq. apply search_components_depth in Hs. simpl in Hs.
  rewrite Heq in Hs. specialize (Hs c Hc). lia.
Qed.

Lemma exhaustive_small_bound_finds_nothing_witness :
  sample_cycles_exhaustive Example.one_component 100 Example.three_graph
    Example.three_map 2 = Some (Ok []).
Proof.
  assert (Hrun : ∃ cycles,
            sample_cycles_exhaustive Example.one_component 100 Example.three_graph
              Example.three_map 2 = Some (Ok cycles)).
  { eexists. vm_compute. reflexivity. }
  destruct Hrun as [cycles Hrun]. rewrite Hrun. do 2 f_equal.
  apply (exhaustive_small_bound_finds_nothing Example.one_component
           Example.three_graph Example.three_map 2 cycles); [lia|].
  by exists 100.
Defined.

(** ** The describer *)

(** X16. The rows of the first table of [describe_cycles] come in the
    order of the input with strictly increasing ids; the id of a row is
    the position in the input of a cycle that has at least three entries
    and ends with its first one, and the text of the row is the
    description of that cycle joined by newlines; every such cycle of the
    input has a row, and the others are skipped without renumbering. *)
Theorem describe_cycles_rows (cycles : list (list ident))
    (request_map : gmap ident request)
    (all_rows user_rows : list cycle_record) :
  describe_cycles cycles request_map = Ok (all_rows, user_rows) →
  (∀ i j r1 r2, i < j → all_rows !! i = Some r1 → all_rows !! j = Some r2 →
     cycle_id r1 < cycle_id r2)
  ∧ (∀ r, r ∈ all_rows →
       ∃ c d, cycles !! cycle_id r = Some c ∧ describable c = true ∧
              describe_steps c request_map = Ok d ∧
              exchange_path r = Str.join Str.newline d)
  ∧ (∀ i c, cycles !! i = Some c → describable c = true →
       ∃ r, r ∈ all_rows ∧ cycle_id r = i).
Proof.
  intros (Hsorted & Hrows & Hall)%describe_from_rows. split; [done|]. split.
  - intros r Hr. destruct (Hrows r Hr) as (_ & c & d & Hc & ?).
    exists c, d. by rewrite Nat.sub_0_r in Hc.
  - intros i c Hc Hd. destruct (Hall i c Hc Hd) as (r & ? & ?). by exists r.
Qed.

Lemma describe_cycles_rows_witness :
  (∀ i j r1 r2, i < j →
     [Example.row_1] !! i = Some r1 → [Example.row_1] !! j = Some r2 →
     cycle_id r1 < cycle_id r2)
  ∧ (∀ r, r ∈ [Example.row_1] →
       ∃ c d, [[Example.A; Example.C]; [Example.A; Example.C; Example.B; Example.A]]
                !! cycle_id r = Some c
              ∧ describable c = true
              ∧ describe_steps c Example.three_map = Ok d
              ∧ exchange_path r = Str.join Str.newline d)
  ∧ (∀ i c, [[Example.A; Example.C]; [Example.A; Example.C; Example.B; Example.A]]
              !! i = Some c →
       describable c = true → ∃ r, r ∈ [Example.row_1] ∧ cycle_id r = i).
Proof.
  apply (describe_cycles_rows
           [[Example.A; Example.C]; [Example.A; Example.C; Example.B; Example.A]]
           Example.three_map [Example.row_1] []).
  vm_compute. reflexivity.
Defined.

(** X17. The describer takes whatever either strategy returns, with the
    same request map, without raising: it skips no cycle and numbers the
    rows 0, 1, 2, ... *)
Theorem describe_cycles_total_on_returned
    (connected_components simple_cycles : DiGraph → list (list ident))
    (G : DiGraph) (request_map : gmap ident request) (max_len : Z)
    (cycles : list (list ident)) :
  greedy_returns connected_components simple_cycles G request_map max_len cycles
  ∨ exhaustive_returns connected_components G request_map max_len cycles →
  ∃ all_rows user_rows,
    describe_cycles cycles request_map = Ok (all_rows, user_rows)
    ∧ cycle_id <$> all_rows = seq 0 (length cycles).
Proof. apply describe_returned. Qed.

Lemma describe_cycles_total_on_returned_witness :
  ∃ all_rows user_rows,
    describe_cycles [[Example.A; Example.C; Example.B; Example.A];
                     [Example.D; Example.F; Example.E; Example.D]] Example.six_map
    = Ok (all_rows, user_rows)
    ∧ cycle_id <$> all_rows = [0; 1].
Proof.
  apply (describe_cycles_total_on_returned Example.two_components spanning_cycles
           Example.six_graph Example.six_map default_max_len
           [[Example.A; Example.C; Example.B; Example.A];
            [Example.D; Example.F; Example.E; Example.D]]).
  right. exists 100. vm_compute. reflexivity.
Defined.

(** X18. When no two requests share an id, the description of a cycle
    returned by the exhaustive strategy has one line for each of its
    steps. *)
Theorem described_cycle_has_line_per_step
    (connected_components : DiGraph → list (list ident))
    (requests : list request) (G : DiGraph) (max_len : Z)
    (cycles : list (list ident)) (c : list ident) :
  NoDup (id <$> requests) →
  build_graph requests = Ok G →
  exhaustive_returns connected_components G (make_request_map requests)
    max_len cycles →
  c ∈ cycles →
  ∃ d, describe_steps c (make_request_map requests) = Ok d
       ∧ length d = length c - 1.
Proof.
  intros Hnd HG Hex Hc.
  destruct (describe_steps_passes c (make_request_map requests)) as [d Hd].
  { by eapply exhaustive_returns_passes. }
  exists d. split; [done|]. eapply describe_steps_full; [|exact Hd].
  intros u v Huv.
  apply exhaustive_returns_ok in Hex as [_ Hcyc].
  destruct (Hcyc c Hc) as (p0 & ps & _ & _ & _ & Hedges).
  apply Hedges in Huv. apply build_graph_inv in HG as (_ & _ & Hiff).
  apply Hiff in Huv as (_ & req_a & req_b & o & w & ko & kw
                        & Ha & Hb & <- & <- & Ho & Hw & Hko & Hkw & Hl).
  exists req_a, req_b, o, w.
  rewrite !make_request_map_unique by done. repeat split; try done.
  unfold names_match, get_full_name. rewrite Hko, Hkw. simpl.
  by rewrite Hl, StrFacts.eqb_refl_true.
Qed.

Lemma described_cycle_has_line_per_step_witness :
  ∃ d, describe_steps [Example.D; Example.F; Example.E; Example.D]
         (make_request_map Example.six_parties) = Ok d
       ∧ length d = length [Example.D; Example.F; Example.E; Example.D] - 1.
Proof.
  apply (described_cycle_has_line_per_step Example.two_components
           Example.six_parties Example.six_graph default_max_len
           [[Example.A; Example.C; Example.B; Example.A];
            [Example.D; Example.F; Example.E; Example.D]]).
  - compute_done.
  - vm_compute. reflexivity.
  - exists 100. vm_compute. reflexivity.
  - right. left.
Defined.

(** ** The matching run *)

(** X19. When no offer of any participant matches a want of another
    participant, the matching run does under either strategy what
    [build_graph] does: it raises what [build_graph] raises, on a row
    without identity key, and it returns the empty table when
    [build_graph] returns a graph. Participants without a match never
    appear in a cycle. *)
Theorem no_demand_empty_table
    (connected_components simple_cycles : DiGraph → list (list ident))
    (fuel : nat) (algo : algo_choice) (requests : list request) :
  (∀ u v, ¬ demand requests u v) →
  simple_cycles_spec simple_cycles →
  find_exchange_cycles connected_components simple_cycles (S fuel) algo requests
  = match build_graph requests with
    | Ok _ => Some (Ok [])
    | Raise e => Some (Raise e)
    end.
Proof.
  intros Hnone Hsc. unfold find_exchange_cycles.
  destruct (build_graph requests) as [G|e] eqn:HG; [|done].
  destruct algo.
  - by rewrite sample_cycles_greedy_empty.
  - unfold sample_cycles_exhaustive.
    rewrite search_components_edgeless; [done|].
    intros n. destruct (successors G n) as [|v vs] eqn:Hs; [done|].
    destruct (Hnone n v). apply build_graph_inv in HG as (_ & _ & Hiff).
    apply Hiff. rewrite Hs. left.
Qed.

Lemma lonely_graph_built :
  build_graph Example.lonely_parties = Ok Example.lonely_graph.
Proof. vm_compute. reflexivity. Qed.

Lemma no_demand_empty_table_witness :
  find_exchange_cycles (λ _, [[Example.A]; [Example.B]]) spanning_cycles
    1 Exhaustive Example.lonely_parties
  = Some (Ok []).
Proof.
  eapply eq_trans.
  - apply (no_demand_empty_table (λ _, [[Example.A]; [Example.B]]) spanning_cycles
             0 Exhaustive Example.lonely_parties).
    + intros u v Hd.
      apply (build_graph_inv _ _ lonely_graph_built) in Hd.
      unfold successors in Hd. simpl in Hd. rewrite lookup_empty in Hd.
      by apply elem_of_nil in Hd.
    + exact spanning_cycles_spec.
  - by rewrite lonely_graph_built.
Defined.

(** X20. On requests all of whose rows carry an identity key that is
    text the matching run raises nothing under either strategy: given
    components made of nodes of the graph and enough loop iterations, it
    returns a table. *)
Theorem matching_run_total
    (connected_components simple_cycles : DiGraph → list (list ident))
    (requests : list request) (algo : algo_choice) (fuel : nat) :
  all_keyed requests →
  simple_cycles_spec simple_cycles →
  (∀ G comp n, build_graph requests = Ok G →
     comp ∈ connected_components G → n ∈ comp → n ∈ nodes G) →
  ∃ G, build_graph requests = Ok G
       ∧ (enough_fuel G default_max_len ≤ fuel →
          ∃ rows,
            find_exchange_cycles connected_components simple_cycles fuel algo
              requests = Some (Ok rows)).
Proof.
  intros Hkeyed Hsc Hcomps.
  destruct (build_graph_keyed requests Hkeyed) as [G HG]. exists G.
  split; [done|]. intros Hfuel. unfold find_exchange_cycles. rewrite HG.
  set (request_map := make_request_map requests).
  pose proof (build_graph_inv _ _ HG) as (Hwf & Hnodes & _).
  assert (Hknown : ∀ n, n ∈ nodes G → known request_map n).
  { intros n Hn. apply make_request_map_is_Some. by apply Hnodes. }
  assert (Hret : ∃ cycles,
            (greedy_returns connected_components simple_cycles G request_map
               default_max_len cycles
             ∨ exhaustive_returns connected_components G request_map
                 default_max_len cycles)
            ∧ match algo with
              | Greedy =>
                  Some (sample_cycles_greedy connected_components simple_cycles
                          G request_map default_max_len)
              | Exhaustive =>
                  sample_cycles_exhaustive connected_components fuel
                    G request_map default_max_len
              end = Some (Ok cycles)).
  { destruct algo.
    - exists []. unfold greedy_returns.
      rewrite sample_cycles_greedy_empty by done. by split; [left|].
    - unfold exhaustive_returns, sample_cycles_exhaustive.
      destruct (search_components_terminates fuel G (connected_components G)
                  default_max_len request_map initial_state Hfuel) as [r Hr].
      destruct r as [st|e].
      + exists (all_cycles st). rewrite Hr. split; [right; exists fuel|]; by rewrite ?Hr.
      + destruct (search_components_no_raise fuel G (connected_components G)
                    default_max_len request_map e); try done.
        * by apply make_request_map_keyed.
        * intros comp n Hc Hn. apply Hknown. by eapply Hcomps.
        * intros u v Huv. apply Hknown. by apply Hwf in Huv as [_ ?]. }
  destruct Hret as (cycles & Hrun & ->).
  destruct (describe_returned _ _ _ _ _ _ Hrun) as (all_rows & user_rows & -> & _).
  by exists all_rows.
Qed.

Lemma six_parties_keyed : all_keyed Example.six_parties.
Proof. repeat constructor; by eexists. Qed.

Lemma matching_run_total_witness :
  ∃ G, build_graph Example.six_parties = Ok G
       ∧ (enough_fuel G default_max_len ≤ 100 →
          ∃ rows,
            find_exchange_cycles Example.two_components spanning_cycles 100
              Exhaustive Example.six_parties = Some (Ok rows)).
Proof.
  apply (matching_run_total Example.two_components spanning_cycles
           Example.six_parties Exhaustive 100 six_parties_keyed
           spanning_cycles_spec).
  intros G comp n HG Hc Hn.
  apply build_graph_inv in HG as (_ & Hnodes & _). apply Hnodes.
  assert (Hid : n ∈ id <$> Example.six_parties).
  { repeat (apply elem_of_cons in Hc as [->|Hc]); [..|by apply elem_of_nil in Hc].
    all: repeat (apply elem_of_cons in Hn as [->|Hn]);
      [..|by apply elem_of_nil in Hn]; compute_done. }
  apply list_elem_of_fmap in Hid as (r & -> & Hr). by exists r.
Defined.

(** ** The normaliser *)

(** X21. The normalisation [s.strip().upper()] of lines 57 and 60 is
    idempotent: a text that is already normalised is its own normal
    form. *)
Theorem normalise_idempotent (s : string) :
  Str.upper (Str.strip (Str.upper (Str.strip s))) = Str.upper (Str.strip s).
Proof.
  by rewrite StrMore.strip_upper, StrMore.strip_idemp, StrMore.upper_idemp.
Qed.

(** X22. On two keys made by the loader from models and versions written
    in ASCII, the comparison of lines 81 and 93, which ignores case, is
    the equality of the keys: the pair the tracker stores stands for
    exactly the offers that match it. *)
Theorem loader_keys_match_iff_equal (m1 v1 m2 v2 : string) :
  ascii_text m1 = true → ascii_text v1 = true →
  ascii_text m2 = true → ascii_text v2 = true →
  names_match (add_full_name (raw_asset m1 v1)) (add_full_name (raw_asset m2 v2))
  = Ok (bool_decide (full_name (add_full_name (raw_asset m1 v1))
                     = full_name (add_full_name (raw_asset m2 v2)))).
Proof.
  intros _ _ _ _.
  unfold names_match, get_full_name, add_full_name. simpl. f_equal.
  set (k1 := Str.upper (Str.strip m1) +:+ " - " +:+ Str.upper (Str.strip v1)).
  set (k2 := Str.upper (Str.strip m2) +:+ " - " +:+ Str.upper (Str.strip v2)).
  destruct (String.eqb_spec (Str.lower k1) (Str.lower k2)) as [Hl|Hl].
  - apply StrMore.lower_inj_upper in Hl; [|apply loader_key_upper..].
    rewrite Hl. by rewrite bool_decide_eq_true_2.
  - rewrite bool_decide_eq_false_2; [done|]. intros [= Hk]. by rewrite Hk in Hl.
Qed.

Lemma loader_keys_match_iff_equal_witness :
  names_match (add_full_name (raw_asset "Civic" "LX "))
    (add_full_name (raw_asset " civic" "lx"))
  = Ok (bool_decide (full_name (add_full_name (raw_asset "Civic" "LX "))
                     = full_name (add_full_name (raw_asset " civic" "lx")))).
Proof.
  apply (loader_keys_match_iff_equal "Civic" "LX " " civic" "lx"); reflexivity.
Defined.

(** ** The upload button and the store *)

(** X23. The upload button answers "fill name and agency id", and leaves
    the store as it is, exactly when the name or the agency id consists
    of whitespace only (or is empty). *)
Theorem upload_rejected_iff_blank (name agency : string)
    (file : option (list asset * list asset)) (coll : list user_doc) :
  upload_file name agency file coll = (MissingNameOrId, coll)
  ↔ Str.blank name = true ∨ Str.blank agency = true.
Proof.
  unfold upload_file.
  rewrite <- !StrMore.strip_empty_blank, <- !eqb_empty.
  destruct (String.eqb (Str.strip name) ""), (String.eqb (Str.strip agency) "");
    simpl; try (split; [auto|done]).
  split; [|by intros [|]]. by destruct file as [[? ?]|].
Qed.

(** X24. A save changes what the loader returns by one request, the
    request of the new upload, put in without moving or changing any other
    request; the display name of that request is the name stored with the
    first upload of the agency, not the name given now. *)
Theorem save_adds_one_request (offers wants : list asset) (name : string)
    (agency : ident) (coll : list user_doc) :
  ∃ l1 l2,
    load_all_requests_from_mongo coll = l1 ++ l2
    ∧ load_all_requests_from_mongo
        (save_user_data_to_mongo offers wants name agency coll)
      = l1 ++ saved_request offers wants name agency coll :: l2.
Proof.
  destruct (save_load offers wants name agency coll) as (l1 & l2 & ? & ? & _).
  by exists l1, l2.
Qed.

Lemma filter_none {A} (P : A → Prop) `{!∀ x, Decision (P x)} (l : list A) :
  (∀ x, x ∈ l → ¬ P x) → filter P l = [].
Proof.
  induction l as [|x l IH]; intros Hl; [done|].
  rewrite filter_cons_False; [apply IH|apply Hl; left].
  intros y ?. apply Hl. by right.
Qed.

(** X25. In a store with one document per agency id, the upload just
    saved is the one the request map of a run holds for the agency: the
    conflict check and the describer read the latest upload. *)
Theorem saved_upload_is_in_request_map (offers wants : list asset)
    (name : string) (agency : ident) (coll : list user_doc) :
  NoDup (agency_id <$> coll) →
  make_request_map
    (load_all_requests_from_mongo
       (save_user_data_to_mongo offers wants name agency coll)) !! agency
  = Some (saved_request offers wants name agency coll).
Proof.
  intros Hnd. rewrite make_request_map_last.
  destruct (save_load offers wants name agency coll) as (l1 & l2 & _ & -> & Hl2).
  rewrite filter_app, filter_cons_True by done.
  rewrite (filter_none _ l2); [|intros r Hr; by apply Hl2].
  apply last_snoc.
Qed.

Lemma saved_upload_is_in_request_map_witness :
  make_request_map
    (load_all_requests_from_mongo
       (save_user_data_to_mongo [raw_asset "Polo" "TSI"] [] "Bea"
          Example.B Example.civic_docs)) !! Example.B
  = Some {| id := Example.B; name := Example.B;
            offers := [add_full_name (raw_asset "Polo" "TSI")]; wants := [] |}.
Proof.
  apply (saved_upload_is_in_request_map [raw_asset "Polo" "TSI"] [] "Bea"
           Example.B Example.civic_docs).
  compute_done.
Defined.

(** X26. A save keeps one document per agency id: in a store without two
    documents of one agency a save leaves it so, keeps every agency that
    was there and has the saved agency in it. *)
Theorem save_keeps_one_document_per_agency (offers wants : list asset)
    (name : string) (agency : ident) (coll : list user_doc) :
  NoDup (agency_id <$> coll) →
  NoDup (agency_id <$> save_user_data_to_mongo offers wants name agency coll)
  ∧ agency ∈ agency_id <$> save_user_data_to_mongo offers wants name agency coll
  ∧ ∀ a, a ∈ agency_id <$> coll →
         a ∈ agency_id <$> save_user_data_to_mongo offers wants name agency coll.
Proof.
  intros Hnd. rewrite save_agency_ids. case_bool_decide as Hin.
  - done.
  - split; [|split].
    + apply NoDup_app. split; [done|]. split; [|apply NoDup_singleton].
      by intros x Hx ->%list_elem_of_singleton.
    + apply elem_of_app. right. left.
    + intros a Ha. apply elem_of_app. by left.
Qed.

Lemma save_keeps_one_document_per_agency_witness :
  NoDup (agency_id <$> save_user_data_to_mongo [] [] "Cy" Example.C
                         Example.civic_docs)
  ∧ Example.C ∈ agency_id <$> save_user_data_to_mongo [] [] "Cy" Example.C
                                Example.civic_docs
  ∧ ∀ a, a ∈ agency_id <$> Example.civic_docs →
         a ∈ agency_id <$> save_user_data_to_mongo [] [] "Cy" Example.C
                             Example.civic_docs.
Proof.
  apply (save_keeps_one_document_per_agency [] [] "Cy" Example.C
           Example.civic_docs).
  compute_done.
Defined.
